(** * TypeFieldExtractor (pkg/engine/plan/type_field_extractor.go)

    A shallow embedding of the extractor that computes, for one GraphQL
    subgraph document, the root TypeFields (fields of root operation types
    and of federation entities) and the child TypeFields (every field
    reachable from the return types of the root fields), together with the
    properties of the walk: termination on cyclic type graphs, the shape of
    the two result lists, and the effect of the extraction on its
    surroundings. *)

From stdpp Require Import gmap strings list.

Open Scope string_scope.
Open Scope Z_scope.
Open Scope list_scope.

(** ** The document model (package ast) *)

Module ast.

(** Modelled from the spec: the kinds of top-level nodes of a type-system
    document.  The extractor only distinguishes object type definitions and
    object type extensions from everything else. *)
Inductive NodeKind : Set :=
  | NodeKindUnknown
  | NodeKindSchemaDefinition
  | NodeKindSchemaExtension
  | NodeKindObjectTypeDefinition
  | NodeKindObjectTypeExtension
  | NodeKindInterfaceTypeDefinition
  | NodeKindInterfaceTypeExtension
  | NodeKindUnionTypeDefinition
  | NodeKindUnionTypeExtension
  | NodeKindScalarTypeDefinition
  | NodeKindScalarTypeExtension
  | NodeKindDirectiveDefinition
  | NodeKindEnumTypeDefinition
  | NodeKindEnumTypeExtension
  | NodeKindInputObjectTypeDefinition
  | NodeKindInputObjectTypeExtension.

(** Modelled from the spec: a node is an opaque handle, a kind and an
    integer reference into the document. *)
Record Node : Set := mkNode { Kind : NodeKind; Ref : Z }.

(** Modelled from the spec: the index of a document.  [nodes] is the finite
    dictionary from type names to the first node declared under that name;
    [IsRootOperationTypeNameString] tests root-operation-type-name
    membership. *)
Record Index : Type := mkIndex {
  nodes : gmap string Node;
  IsRootOperationTypeNameString : string -> bool
}.

(** Modelled from the spec: look up a node by type name; [None] is the
    [false] of the Go pair. *)
Definition FirstNodeByNameStr (i : Index) (name : string) : option Node :=
  nodes i !! name.

(** Modelled from the spec: the Schema Navigator.  A document is its list
    of top-level nodes, its index and the structural queries the extractor
    consumes; field definitions and directives are integer references. *)
Record Document : Type := mkDocument {
  RootNodes : list Node;
  DocumentIndex : Index;
  NodeNameString : Node -> string;
  NodeFieldDefinitions : Node -> list Z;
  NodeDirectives : Node -> list Z;
  DirectiveNameString : Z -> string;
  FieldDefinitionNameString : Z -> string;
  FieldDefinitionTypeNode : Z -> Node;
  FieldDefinitionHasNamedDirective : Z -> string -> bool
}.

End ast.

Import ast.

#[global] Instance NodeKind_eq_dec : EqDecision NodeKind.
Proof. solve_decision. Defined.

#[global] Instance Node_eq_dec : EqDecision Node.
Proof. solve_decision. Defined.

(** Modelled from the spec: the Base Schema Resolver's collaborators
    (packages astprinter, federation, astparser, asttransform).  A Go error
    result is [None]; the parser returns the document together with
    [report.HasErrors()]; the merge, which updates its argument in place,
    returns the updated document. *)
Record Collaborators : Type := mkCollaborators {
  PrintString : Document -> option string;
  BuildBaseSchemaDocument : string -> option string;
  ParseGraphqlDocumentString : string -> Document * bool;
  MergeDefinitionWithBaseSchema : Document -> option Document
}.

(** ** The extractor *)

Definition federationKeyDirectiveName : string := "key".
Definition federationRequireDirectiveName : string := "requires".
Definition federationExternalDirectiveName : string := "external".

Record TypeField : Set := mkTypeField {
  TypeName : string;
  FieldNames : list string
}.

#[global] Instance TypeField_eq_dec : EqDecision TypeField.
Proof. solve_decision. Defined.

(** The inner loop of [addChildTypeFieldName]: is [fieldName] among
    [fields]? *)
Fixpoint containsField (fieldName : string) (fields : list string) : bool :=
  match fields with
  | [] => false
  | field :: rest =>
      if String.eqb field fieldName then true else containsField fieldName rest
  end.

(** [addChildTypeFieldName typeName fieldName childNodes] returns the
    [added] flag and the updated slice. *)
Fixpoint addChildTypeFieldName (typeName fieldName : string)
    (childNodes : list TypeField) : bool * list TypeField :=
  match childNodes with
  | [] => (true, [mkTypeField typeName [fieldName]])
  | tf :: rest =>
      if negb (String.eqb (TypeName tf) typeName) then
        let '(added, rest') := addChildTypeFieldName typeName fieldName rest in
        (added, tf :: rest')
      else if containsField fieldName (FieldNames tf) then
        (false, tf :: rest)
      else
        (true, mkTypeField (TypeName tf) (FieldNames tf ++ [fieldName]) :: rest)
  end.

Definition fieldTypeName (d : Document) (fieldRef : Z) : string :=
  NodeNameString d (FieldDefinitionTypeNode d fieldRef).

(** The loop of [findChildNodesForType] over the field definitions of the
    type; [recurse] is the recursive call. *)
Fixpoint walkFieldDefinitions
    (recurse : string -> list TypeField -> option (list TypeField))
    (d : Document) (typeName : string) (fieldsRefs : list Z)
    (childNodes : list TypeField) : option (list TypeField) :=
  match fieldsRefs with
  | [] => Some childNodes
  | fieldRef :: rest =>
      let fieldName := FieldDefinitionNameString d fieldRef in
      let '(added, childNodes1) :=
        addChildTypeFieldName typeName fieldName childNodes in
      if negb added then
        walkFieldDefinitions recurse d typeName rest childNodes1
      else
        match recurse (fieldTypeName d fieldRef) childNodes1 with
        | Some childNodes2 =>
            walkFieldDefinitions recurse d typeName rest childNodes2
        | None => None
        end
  end.

(** [findChildNodesForType]; the recursion of the source is bounded by
    [fuel], the depth of nested calls, and [None] means the bound was hit. *)
Fixpoint findChildNodesForType (fuel : nat) (d : Document) (typeName : string)
    (childNodes : list TypeField) : option (list TypeField) :=
  match fuel with
  | O => None
  | S fuel' =>
      match FirstNodeByNameStr (DocumentIndex d) typeName with
      | None => Some childNodes
      | Some node =>
          walkFieldDefinitions (findChildNodesForType fuel' d) d typeName
            (NodeFieldDefinitions d node) childNodes
      end
  end.

(** The map [fieldNameToRef] of [getAllChildNodes]: a later field
    definition overwrites an earlier one of the same name. *)
Fixpoint buildFieldNameToRef (d : Document) (fieldRefs : list Z)
    (fieldNameToRef : gmap string Z) : gmap string Z :=
  match fieldRefs with
  | [] => fieldNameToRef
  | fieldRef :: rest =>
      buildFieldNameToRef d rest
        (<[FieldDefinitionNameString d fieldRef := fieldRef]> fieldNameToRef)
  end.

(** Reading a Go map at a missing key yields the zero value. *)
Definition mapIndex (fieldNameToRef : gmap string Z) (fieldName : string) : Z :=
  default 0 (fieldNameToRef !! fieldName).

(** The inner loop of [getAllChildNodes] over the field names of one root
    TypeField. *)
Fixpoint walkRootFieldNames (fuel : nat) (d : Document)
    (fieldNameToRef : gmap string Z) (fieldNames : list string)
    (childNodes : list TypeField) : option (list TypeField) :=
  match fieldNames with
  | [] => Some childNodes
  | fieldName :: rest =>
      let fieldRef := mapIndex fieldNameToRef fieldName in
      match findChildNodesForType fuel d (fieldTypeName d fieldRef)
              childNodes with
      | Some childNodes' =>
          walkRootFieldNames fuel d fieldNameToRef rest childNodes'
      | None => None
      end
  end.

(** The outer loop of [getAllChildNodes]. *)
Fixpoint walkRootNodes (fuel : nat) (d : Document) (rootNodes : list TypeField)
    (childNodes : list TypeField) : option (list TypeField) :=
  match rootNodes with
  | [] => Some childNodes
  | rootNode :: rest =>
      match FirstNodeByNameStr (DocumentIndex d) (TypeName rootNode) with
      | None => walkRootNodes fuel d rest childNodes
      | Some rootNodeASTNode =>
          let fieldNameToRef :=
            buildFieldNameToRef d (NodeFieldDefinitions d rootNodeASTNode) ∅ in
          match walkRootFieldNames fuel d fieldNameToRef (FieldNames rootNode)
                  childNodes with
          | Some childNodes' => walkRootNodes fuel d rest childNodes'
          | None => None
          end
      end
  end.

(** The (type, field) pairs a walk over [d] can ever register: the field
    names of every indexed type. *)
Definition pairUniverse (d : Document) : list (string * string) :=
  '(typeName, node) ← map_to_list (nodes (DocumentIndex d));
  (λ fieldRef, (typeName, FieldDefinitionNameString d fieldRef))
    <$> NodeFieldDefinitions d node.

(** A recursion depth no walk over [d] exceeds. *)
Definition walkFuel (d : Document) : nat := S (length (pairUniverse d)).

(** [getAllChildNodes]: the walk at the depth [walkFuel], which it never
    exhausts (lemma [getAllChildNodes_fuel]). *)
Definition getAllChildNodes (d : Document) (rootNodes : list TypeField)
    : list TypeField :=
  default [] (walkRootNodes (walkFuel d) d rootNodes []).

Section Extractor.

Variable env : Collaborators.

(** [baseSchema]: print, synthesize the federation base schema, parse,
    merge, print again, parse again; any failure yields [nil]. *)
Definition baseSchema (d : Document) : option Document :=
  match PrintString env d with
  | None => None
  | Some schemaSDL =>
      match BuildBaseSchemaDocument env schemaSDL with
      | None => None
      | Some baseSchemaSDL =>
          let '(document, hasErrors) :=
            ParseGraphqlDocumentString env baseSchemaSDL in
          if hasErrors then None
          else
            match MergeDefinitionWithBaseSchema env document with
            | None => None
            | Some document' =>
                match PrintString env document' with
                | None => None
                | Some mergedSDL =>
                    let '(mergedDocument, hasErrors') :=
                      ParseGraphqlDocumentString env mergedSDL in
                    if hasErrors' then None else Some mergedDocument
                end
            end
      end
  end.

Definition isEntity (d : Document) (astNode : Node) : bool :=
  existsb
    (λ directiveRef,
       String.eqb (DirectiveNameString d directiveRef)
         federationKeyDirectiveName)
    (NodeDirectives d astNode).

(** The loop of [addRootNodes] that gathers the names of the field
    definitions without the [external] directive. *)
Fixpoint collectFieldNames (d : Document) (fieldRefs : list Z)
    (fieldNames : list string) : list string :=
  match fieldRefs with
  | [] => fieldNames
  | fieldRef :: rest =>
      if FieldDefinitionHasNamedDirective d fieldRef
           federationExternalDirectiveName
      then collectFieldNames d rest fieldNames
      else collectFieldNames d rest
             (fieldNames ++ [FieldDefinitionNameString d fieldRef])
  end.

Definition addRootNodes (d : Document) (astNode : Node)
    (rootNodes : list TypeField) : list TypeField :=
  let typeName := NodeNameString d astNode in
  let document := baseSchema d in
  if negb (isEntity d astNode)
     && match document with
        | None => true
        | Some document' =>
            negb (IsRootOperationTypeNameString (DocumentIndex document')
                    typeName)
        end
  then rootNodes
  else
    let fieldNames := collectFieldNames d (NodeFieldDefinitions d astNode) [] in
    if (length fieldNames =? 0)%nat then rootNodes
    else rootNodes ++ [mkTypeField typeName fieldNames].

Definition isObjectTypeNode (astNode : Node) : bool :=
  match Kind astNode with
  | NodeKindObjectTypeExtension | NodeKindObjectTypeDefinition => true
  | _ => false
  end.

Fixpoint collectRootNodes (d : Document) (astNodes : list Node)
    (rootNodes : list TypeField) : list TypeField :=
  match astNodes with
  | [] => rootNodes
  | astNode :: rest =>
      if isObjectTypeNode astNode
      then collectRootNodes d rest (addRootNodes d astNode rootNodes)
      else collectRootNodes d rest rootNodes
  end.

Definition getAllRootNodes (d : Document) : list TypeField :=
  collectRootNodes d (RootNodes d) [].

Definition GetAllNodes (d : Document) : list TypeField * list TypeField :=
  let rootNodes := getAllRootNodes d in
  let childNodes := getAllChildNodes d rootNodes in
  (rootNodes, childNodes).

End Extractor.

(** ** The extraction as a call *)

(** What a call of the extractor can touch: the document behind the pointer
    [r.document], and the invocations of the Base Schema Resolver, counted. *)
Record World : Type := mkWorld {
  heldDocument : Document;
  resolverCalls : nat
}.

Definition Call (A : Type) : Type := World → A * World.

#[global] Instance Call_ret : MRet Call := λ A a w, (a, w).

#[global] Instance Call_bind : MBind Call :=
  λ A B f m w, let '(a, w') := m w in f a w'.

(** Reading [r.document]. *)
Definition readDocument : Call Document := λ w, (heldDocument w, w).

(** One more invocation of the resolver. *)
Definition resolverInvoked : Call unit :=
  λ w, (tt, mkWorld (heldDocument w) (S (resolverCalls w))).

Section Calls.

Variable env : Collaborators.

(** Modelled from the spec: the printer, the only collaborator handed
    [r.document] itself, reads it and leaves it as it is. *)
Definition baseSchemaCall : Call (option Document) :=
  d ← readDocument;
  _ ← resolverInvoked;
  mret (baseSchema env d).

Definition addRootNodesCall (astNode : Node) (rootNodes : list TypeField)
    : Call (list TypeField) :=
  d ← readDocument;
  let typeName := NodeNameString d astNode in
  document ← baseSchemaCall;
  d' ← readDocument;
  if negb (isEntity d' astNode)
     && match document with
        | None => true
        | Some document' =>
            negb (IsRootOperationTypeNameString (DocumentIndex document')
                    typeName)
        end
  then mret rootNodes
  else
    let fieldNames :=
      collectFieldNames d' (NodeFieldDefinitions d' astNode) [] in
    if (length fieldNames =? 0)%nat then mret rootNodes
    else mret (rootNodes ++ [mkTypeField typeName fieldNames]).

Fixpoint collectRootNodesCall (astNodes : list Node)
    (rootNodes : list TypeField) : Call (list TypeField) :=
  match astNodes with
  | [] => mret rootNodes
  | astNode :: rest =>
      if isObjectTypeNode astNode
      then rootNodes' ← addRootNodesCall astNode rootNodes;
           collectRootNodesCall rest rootNodes'
      else collectRootNodesCall rest rootNodes
  end.

Definition getAllRootNodesCall : Call (list TypeField) :=
  d ← readDocument;
  collectRootNodesCall (RootNodes d) [].

Fixpoint walkFieldDefinitionsCall
    (recurse : string → list TypeField → Call (option (list TypeField)))
    (typeName : string) (fieldsRefs : list Z) (childNodes : list TypeField)
    : Call (option (list TypeField)) :=
  match fieldsRefs with
  | [] => mret (Some childNodes)
  | fieldRef :: rest =>
      d ← readDocument;
      let fieldName := FieldDefinitionNameString d fieldRef in
      let '(added, childNodes1) :=
        addChildTypeFieldName typeName fieldName childNodes in
      if negb added then
        walkFieldDefinitionsCall recurse typeName rest childNodes1
      else
        d' ← readDocument;
        result ← recurse (fieldTypeName d' fieldRef) childNodes1;
        match result with
        | Some childNodes2 =>
            walkFieldDefinitionsCall recurse typeName rest childNodes2
        | None => mret None
        end
  end.

Fixpoint findChildNodesForTypeCall (fuel : nat) (typeName : string)
    (childNodes : list TypeField) : Call (option (list TypeField)) :=
  match fuel with
  | O => mret None
  | S fuel' =>
      d ← readDocument;
      match FirstNodeByNameStr (DocumentIndex d) typeName with
      | None => mret (Some childNodes)
      | Some node =>
          d' ← readDocument;
          walkFieldDefinitionsCall (findChildNodesForTypeCall fuel') typeName
            (NodeFieldDefinitions d' node) childNodes
      end
  end.

Fixpoint walkRootFieldNamesCall (fuel : nat) (fieldNameToRef : gmap string Z)
    (fieldNames : list string) (childNodes : list TypeField)
    : Call (option (list TypeField)) :=
  match fieldNames with
  | [] => mret (Some childNodes)
  | fieldName :: rest =>
      let fieldRef := mapIndex fieldNameToRef fieldName in
      d ← readDocument;
      result ← findChildNodesForTypeCall fuel (fieldTypeName d fieldRef)
                 childNodes;
      match result with
      | Some childNodes' =>
          walkRootFieldNamesCall fuel fieldNameToRef rest childNodes'
      | None => mret None
      end
  end.

Fixpoint walkRootNodesCall (fuel : nat) (rootNodes : list TypeField)
    (childNodes : list TypeField) : Call (option (list TypeField)) :=
  match rootNodes with
  | [] => mret (Some childNodes)
  | rootNode :: rest =>
      d ← readDocument;
      match FirstNodeByNameStr (DocumentIndex d) (TypeName rootNode) with
      | None => walkRootNodesCall fuel rest childNodes
      | Some rootNodeASTNode =>
          d' ← readDocument;
          let fieldNameToRef :=
            buildFieldNameToRef d' (NodeFieldDefinitions d' rootNodeASTNode) ∅
          in
          result ← walkRootFieldNamesCall fuel fieldNameToRef
                     (FieldNames rootNode) childNodes;
          match result with
          | Some childNodes' => walkRootNodesCall fuel rest childNodes'
          | None => mret None
          end
      end
  end.

(** The child walk reads the document and writes only its own slice. *)
Definition getAllChildNodesCall (rootNodes : list TypeField)
    : Call (list TypeField) :=
  d ← readDocument;
  result ← walkRootNodesCall (walkFuel d) rootNodes [];
  mret (default [] result).

Definition GetAllNodesCall : Call (list TypeField * list TypeField) :=
  rootNodes ← getAllRootNodesCall;
  childNodes ← getAllChildNodesCall rootNodes;
  mret (rootNodes, childNodes).

End Calls.

(** ** Example documents *)

Definition InvalidNode : Node := mkNode NodeKindUnknown (-1).

(** A merged base schema whose only root operation type is [Query]. *)
Definition queryRootedDocument : Document := {|
  RootNodes := [];
  DocumentIndex :=
    {| nodes := ∅;
       IsRootOperationTypeNameString := λ name, String.eqb name "Query" |};
  NodeNameString := λ _, "";
  NodeFieldDefinitions := λ _, [];
  NodeDirectives := λ _, [];
  DirectiveNameString := λ _, "";
  FieldDefinitionNameString := λ _, "";
  FieldDefinitionTypeNode := λ _, InvalidNode;
  FieldDefinitionHasNamedDirective := λ _ _, false
|}.

(** A resolver that succeeds and names [Query] as the root operation type,
    and one that fails at its first step. *)
Definition queryResolver : Collaborators := {|
  PrintString := λ _, Some "";
  BuildBaseSchemaDocument := λ _, Some "";
  ParseGraphqlDocumentString := λ _, (queryRootedDocument, false);
  MergeDefinitionWithBaseSchema := λ document, Some document
|}.

Definition failingResolver : Collaborators := {|
  PrintString := λ _, None;
  BuildBaseSchemaDocument := λ _, None;
  ParseGraphqlDocumentString := λ _, (queryRootedDocument, true);
  MergeDefinitionWithBaseSchema := λ _, None
|}.

(** [type Query { a: Foo }]
    [type Foo @key(fields: "id") { id: ID  b: Bar  secret: String @external }]
    [type Bar { id: ID  a: Foo }] *)
Definition scenarioDocument : Document :=
  let nQuery := mkNode NodeKindObjectTypeDefinition 0 in
  let nFoo := mkNode NodeKindObjectTypeDefinition 1 in
  let nBar := mkNode NodeKindObjectTypeDefinition 2 in
  {| RootNodes := [nQuery; nFoo; nBar];
     DocumentIndex :=
       {| nodes :=
            <["Query" := nQuery]> (<["Foo" := nFoo]> (<["Bar" := nBar]> ∅));
          IsRootOperationTypeNameString := λ _, false |};
     NodeNameString := λ node,
       match Kind node, Ref node with
       | NodeKindObjectTypeDefinition, 0 => "Query"
       | NodeKindObjectTypeDefinition, 1 => "Foo"
       | NodeKindObjectTypeDefinition, 2 => "Bar"
       | _, _ => ""
       end;
     NodeFieldDefinitions := λ node,
       match Kind node, Ref node with
       | NodeKindObjectTypeDefinition, 0 => [0]
       | NodeKindObjectTypeDefinition, 1 => [1; 2; 3]
       | NodeKindObjectTypeDefinition, 2 => [4; 5]
       | _, _ => []
       end;
     NodeDirectives := λ node,
       match Kind node, Ref node with
       | NodeKindObjectTypeDefinition, 1 => [0]
       | _, _ => []
       end;
     DirectiveNameString := λ ref,
       match ref with 0 => "key" | 1 => "external" | _ => "" end;
     FieldDefinitionNameString := λ ref,
       match ref with
       | 0 => "a" | 1 => "id" | 2 => "b" | 3 => "secret" | 4 => "id" | 5 => "a"
       | _ => ""
       end;
     FieldDefinitionTypeNode := λ ref,
       match ref with
       | 0 => nFoo | 2 => nBar | 5 => nFoo
       | _ => InvalidNode
       end;
     FieldDefinitionHasNamedDirective := λ ref name,
       match ref with 3 => String.eqb name "external" | _ => false end
  |}.

(** [type Foo @key(fields: "id") { owner: User }]
    [extend type Foo @key(fields: "id") { name: String }]
    [type User { id: ID }] *)
Definition splitDocument : Document :=
  let nFoo := mkNode NodeKindObjectTypeDefinition 0 in
  let nFooExtension := mkNode NodeKindObjectTypeExtension 0 in
  let nUser := mkNode NodeKindObjectTypeDefinition 1 in
  {| RootNodes := [nFoo; nFooExtension; nUser];
     DocumentIndex :=
       {| nodes := <["Foo" := nFoo]> (<["User" := nUser]> ∅);
          IsRootOperationTypeNameString := λ _, false |};
     NodeNameString := λ node,
       match Kind node, Ref node with
       | NodeKindObjectTypeDefinition, 0 => "Foo"
       | NodeKindObjectTypeExtension, 0 => "Foo"
       | NodeKindObjectTypeDefinition, 1 => "User"
       | _, _ => ""
       end;
     NodeFieldDefinitions := λ node,
       match Kind node, Ref node with
       | NodeKindObjectTypeDefinition, 0 => [0]
       | NodeKindObjectTypeExtension, 0 => [1]
       | NodeKindObjectTypeDefinition, 1 => [2]
       | _, _ => []
       end;
     NodeDirectives := λ node,
       match Kind node, Ref node with
       | NodeKindObjectTypeDefinition, 0 => [0]
       | NodeKindObjectTypeExtension, 0 => [1]
       | _, _ => []
       end;
     DirectiveNameString := λ ref,
       match ref with 0 => "key" | 1 => "key" | _ => "" end;
     FieldDefinitionNameString := λ ref,
       match ref with 0 => "owner" | 1 => "name" | 2 => "id" | _ => "" end;
     FieldDefinitionTypeNode := λ ref,
       match ref with 0 => nUser | _ => InvalidNode end;
     FieldDefinitionHasNamedDirective := λ _ _, false
  |}.


(** [type A { b: B }]  [type B { a: A }] *)
Definition cycleDocument : Document :=
  let nA := mkNode NodeKindObjectTypeDefinition 0 in
  let nB := mkNode NodeKindObjectTypeDefinition 1 in
  {| RootNodes := [nA; nB];
     DocumentIndex :=
       {| nodes := <["A" := nA]> (<["B" := nB]> ∅);
          IsRootOperationTypeNameString := λ _, false |};
     NodeNameString := λ node,
       match Kind node, Ref node with
       | NodeKindObjectTypeDefinition, 0 => "A"
       | NodeKindObjectTypeDefinition, 1 => "B"
       | _, _ => ""
       end;
     NodeFieldDefinitions := λ node,
       match Kind node, Ref node with
       | NodeKindObjectTypeDefinition, 0 => [0]
       | NodeKindObjectTypeDefinition, 1 => [1]
       | _, _ => []
       end;
     NodeDirectives := λ _, [];
     DirectiveNameString := λ _, "";
     FieldDefinitionNameString := λ ref,
       match ref with 0 => "b" | 1 => "a" | _ => "" end;
     FieldDefinitionTypeNode := λ ref,
       match ref with 0 => nB | 1 => nA | _ => InvalidNode end;
     FieldDefinitionHasNamedDirective := λ _ _, false
  |}.

(** ** The vocabulary of the properties *)

(** [registered childNodes typeName fieldName]: the first record for
    [typeName] lists [fieldName].  This is the test that
    [addChildTypeFieldName] performs before it appends. *)
Fixpoint registered (childNodes : list TypeField) (typeName fieldName : string)
    : bool :=
  match childNodes with
  | [] => false
  | tf :: rest =>
      if negb (String.eqb (TypeName tf) typeName)
      then registered rest typeName fieldName
      else containsField fieldName (FieldNames tf)
  end.

(** No two records for one type name; in a record, no field name twice and
    at least one field name. *)
Definition wellFormed (childNodes : list TypeField) : Prop :=
  NoDup (TypeName <$> childNodes) ∧
  Forall (λ tf, NoDup (FieldNames tf) ∧ FieldNames tf ≠ []) childNodes.

Section Vocabulary.

Variable d : Document.

(** The number of pairs of the universe not registered yet. *)
Definition unregistered (childNodes : list TypeField) : nat :=
  length (filter (λ p, registered childNodes p.1 p.2 = false) (pairUniverse d)).

(** A property kept by every registration of a declared field. *)
Definition keptByRegistration (P : list TypeField → Prop) : Prop :=
  ∀ typeName node fieldRef childNodes,
    FirstNodeByNameStr (DocumentIndex d) typeName = Some node →
    fieldRef ∈ NodeFieldDefinitions d node →
    P childNodes →
    P (addChildTypeFieldName typeName
         (FieldDefinitionNameString d fieldRef) childNodes).2.

(** The field definition that a field name of a node resolves to: the
    first one of that name. *)
Definition firstFieldRef (node : Node) (fieldName : string) : option Z :=
  List.find
    (λ fieldRef, String.eqb (FieldDefinitionNameString d fieldRef) fieldName)
    (NodeFieldDefinitions d node).

(** Every field definition of [typeName] is registered (nothing to
    register when the name resolves to no node). *)
Definition fullyRegistered (childNodes : list TypeField) (typeName : string)
    : Prop :=
  ∀ node fieldRef,
    FirstNodeByNameStr (DocumentIndex d) typeName = Some node →
    fieldRef ∈ NodeFieldDefinitions d node →
    registered childNodes typeName (FieldDefinitionNameString d fieldRef) = true.

(** The return type of every registered field is fully registered or is
    one of the types in [pending], whose loops are still running. *)
Definition closedUpTo (pending : list string) (childNodes : list TypeField)
    : Prop :=
  ∀ t f,
    registered childNodes t f = true →
    ∃ node fieldRef,
      FirstNodeByNameStr (DocumentIndex d) t = Some node ∧
      firstFieldRef node f = Some fieldRef ∧
      (fullyRegistered childNodes (fieldTypeName d fieldRef) ∨
       fieldTypeName d fieldRef ∈ pending).

(** The type name that [getAllChildNodes] enters for a field name of a root
    record resolved to [rootNodeASTNode]. *)
Definition rootFieldTypeName (rootNodeASTNode : Node) (fieldName : string)
    : string :=
  fieldTypeName d
    (mapIndex
       (buildFieldNameToRef d (NodeFieldDefinitions d rootNodeASTNode) ∅)
       fieldName).

(** The types the walk enters: the return types of the root fields, and
    the return type of every field of a type it entered. *)
Inductive walked (rootNodes : list TypeField) : string → Prop :=
  | walked_root rootNode rootNodeASTNode fieldName :
      rootNode ∈ rootNodes →
      FirstNodeByNameStr (DocumentIndex d) (TypeName rootNode)
        = Some rootNodeASTNode →
      fieldName ∈ FieldNames rootNode →
      walked rootNodes (rootFieldTypeName rootNodeASTNode fieldName)
  | walked_field typeName node fieldName fieldRef :
      walked rootNodes typeName →
      FirstNodeByNameStr (DocumentIndex d) typeName = Some node →
      firstFieldRef node fieldName = Some fieldRef →
      walked rootNodes (fieldTypeName d fieldRef).

(** The top-level nodes [getAllRootNodes] hands to [addRootNodes]. *)
Definition topLevelObjectTypes : list Node :=
  filter (λ astNode, isObjectTypeNode astNode = true) (RootNodes d).

End Vocabulary.

(** Is [typeName] a root operation type name of the resolved base schema?
    With no base schema ([document == nil]) no name is. *)
Definition isRootOperationType (document : option Document) (typeName : string)
    : bool :=
  match document with
  | None => false
  | Some document' =>
      IsRootOperationTypeNameString (DocumentIndex document') typeName
  end.

Section RootVocabulary.

Variable env : Collaborators.
Variable d : Document.

(** The field definitions of a node without the [external] directive. *)
Definition localFieldRefs (astNode : Node) : list Z :=
  filter
    (λ fieldRef,
       FieldDefinitionHasNamedDirective d fieldRef
         federationExternalDirectiveName = false)
    (NodeFieldDefinitions d astNode).

Definition localFieldNames (astNode : Node) : list string :=
  FieldDefinitionNameString d <$> localFieldRefs astNode.

(** The record, if any, that [getAllRootNodes] emits for a top-level node. *)
Definition rootRecord (astNode : Node) : option TypeField :=
  if isObjectTypeNode astNode
     && (isEntity d astNode
         || isRootOperationType (baseSchema env d) (NodeNameString d astNode))
     && negb (bool_decide (localFieldNames astNode = []))
  then Some (mkTypeField (NodeNameString d astNode) (localFieldNames astNode))
  else None.

End RootVocabulary.

(** ** Vocabulary for the order and the content of the records *)

(** The field names that the first record for [typeName] lists; none when
    the slice has no record for it. *)
Fixpoint fieldsOf (childNodes : list TypeField) (typeName : string)
    : list string :=
  match childNodes with
  | [] => []
  | tf :: rest =>
      if negb (String.eqb (TypeName tf) typeName)
      then fieldsOf rest typeName
      else FieldNames tf
  end.

(** [fieldNames] appended to [seen] one after the other, each unless it is
    there already. *)
Fixpoint appendDistinct (fieldNames seen : list string) : list string :=
  match fieldNames with
  | [] => seen
  | fieldName :: rest =>
      if containsField fieldName seen
      then appendDistinct rest seen
      else appendDistinct rest (seen ++ [fieldName])
  end.

(** The names of the field definitions of a node in declaration order,
    a repeated name at its first place only. *)
Definition declaredNames (d : Document) (node : Node) : list string :=
  appendDistinct (FieldDefinitionNameString d <$> NodeFieldDefinitions d node)
    [].

(** [childNodes'] keeps the records of [childNodes] at their places, each
    with its field names as the front of its new ones, and may have more
    records behind them. *)
Definition extendsSlice (childNodes childNodes' : list TypeField) : Prop :=
  ∃ front new,
    childNodes' = front ++ new ∧
    Forall2
      (λ tf tf',
         TypeName tf' = TypeName tf ∧ FieldNames tf `prefix_of` FieldNames tf')
      childNodes front.

(** Every indexed type has, in the slice, the names of an initial stretch
    of its field definitions, in declaration order and each once. *)
Definition orderedRecords (d : Document) (childNodes : list TypeField) : Prop :=
  ∀ typeName node,
    FirstNodeByNameStr (DocumentIndex d) typeName = Some node →
    ∃ before after,
      NodeFieldDefinitions d node = before ++ after ∧
      fieldsOf childNodes typeName
      = appendDistinct (FieldDefinitionNameString d <$> before) [].

(** The slice has its records in declaration order, and only for types
    that the walk from [rootNodes] enters. *)
Definition enteredRecords (d : Document) (rootNodes childNodes : list TypeField)
    : Prop :=
  orderedRecords d childNodes ∧
  ∀ t, t ∈ TypeName <$> childNodes → walked d rootNodes t.

(** The (type, field) pairs of a slice, and the number of its field
    names. *)
Definition pairsOf (childNodes : list TypeField) : list (string * string) :=
  tf ← childNodes; (λ fieldName, (TypeName tf, fieldName)) <$> FieldNames tf.

Definition fieldCount (childNodes : list TypeField) : nat :=
  length (pairsOf childNodes).

(** [type Zed @key(fields: "id") { id: ID  peer: Zed }] alone in a
    document. *)
Definition entityDocument : Document :=
  let nZed := mkNode NodeKindObjectTypeDefinition 0 in
  {| RootNodes := [nZed];
     DocumentIndex :=
       {| nodes := <["Zed" := nZed]> ∅;
          IsRootOperationTypeNameString := λ _, false |};
     NodeNameString := λ node,
       match Kind node, Ref node with
       | NodeKindObjectTypeDefinition, 0 => "Zed"
       | _, _ => ""
       end;
     NodeFieldDefinitions := λ node,
       match Kind node, Ref node with
       | NodeKindObjectTypeDefinition, 0 => [0; 1]
       | _, _ => []
       end;
     NodeDirectives := λ node,
       match Kind node, Ref node with
       | NodeKindObjectTypeDefinition, 0 => [0]
       | _, _ => []
       end;
     DirectiveNameString := λ ref, match ref with 0 => "key" | _ => "" end;
     FieldDefinitionNameString := λ ref,
       match ref with 0 => "id" | 1 => "peer" | _ => "" end;
     FieldDefinitionTypeNode := λ ref,
       match ref with 1 => nZed | _ => InvalidNode end;
     FieldDefinitionHasNamedDirective := λ _ _, false
  |}.

(** [interface Node @key(fields: "id") { id: ID }] alone in a document. *)
Definition interfaceDocument : Document :=
  let nNode := mkNode NodeKindInterfaceTypeDefinition 0 in
  {| RootNodes := [nNode];
     DocumentIndex :=
       {| nodes := <["Node" := nNode]> ∅;
          IsRootOperationTypeNameString := λ _, false |};
     NodeNameString := λ node,
       match Kind node, Ref node with
       | NodeKindInterfaceTypeDefinition, 0 => "Node"
       | _, _ => ""
       end;
     NodeFieldDefinitions := λ node,
       match Kind node, Ref node with
       | NodeKindInterfaceTypeDefinition, 0 => [0]
       | _, _ => []
       end;
     NodeDirectives := λ node,
       match Kind node, Ref node with
       | NodeKindInterfaceTypeDefinition, 0 => [0]
       | _, _ => []
       end;
     DirectiveNameString := λ ref, match ref with 0 => "key" | _ => "" end;
     FieldDefinitionNameString := λ ref,
       match ref with 0 => "id" | _ => "" end;
     FieldDefinitionTypeNode := λ _, InvalidNode;
     FieldDefinitionHasNamedDirective := λ _ _, false
  |}.

(** ** The extractor on the example documents *)

Example scenario_extraction :
  GetAllNodes queryResolver scenarioDocument
  = ([mkTypeField "Query" ["a"]; mkTypeField "Foo" ["id"; "b"]],
     [mkTypeField "Foo" ["id"; "b"; "secret"];
      mkTypeField "Bar" ["id"; "a"]]).
Proof. vm_compute. reflexivity. Qed.

Example scenario_extraction_without_base_schema :
  GetAllNodes failingResolver scenarioDocument
  = ([mkTypeField "Foo" ["id"; "b"]],
     [mkTypeField "Bar" ["id"; "a"];
      mkTypeField "Foo" ["id"; "b"; "secret"]]).
Proof. vm_compute. reflexivity. Qed.

Example split_extraction :
  GetAllNodes failingResolver splitDocument
  = ([mkTypeField "Foo" ["owner"]; mkTypeField "Foo" ["name"]],
     [mkTypeField "User" ["id"]]).
Proof. vm_compute. reflexivity. Qed.

Example cycle_walk :
  getAllChildNodes cycleDocument [mkTypeField "A" ["b"]]
  = [mkTypeField "B" ["a"]; mkTypeField "A" ["b"]].
Proof. vm_compute. reflexivity. Qed.

Example split_extraction_call :
  GetAllNodesCall failingResolver (mkWorld splitDocument 0)
  = (GetAllNodes failingResolver splitDocument, mkWorld splitDocument 3).
Proof. reflexivity. Qed.

(** ** The registry: which (type, field) pairs a slice of TypeFields holds *)


Lemma containsField_elem_of fieldName fields :
  containsField fieldName fields = true ↔ fieldName ∈ fields.
Proof.
  induction fields as [|field rest IH]; simpl.
  - split; [discriminate | by intros ?%elem_of_nil].
  - destruct (String.eqb_spec field fieldName) as [->|Hne].
    + split; [intros _; left | done].
    + rewrite IH, elem_of_cons. split; [by right | by intros [?|?]].
Qed.

Lemma containsField_app fieldName fields1 fields2 :
  containsField fieldName (fields1 ++ fields2)
  = containsField fieldName fields1 || containsField fieldName fields2.
Proof.
  induction fields1 as [|field rest IH]; simpl; [done|].
  by destruct (String.eqb field fieldName).
Qed.

Lemma addChildTypeFieldName_added typeName fieldName childNodes :
  (addChildTypeFieldName typeName fieldName childNodes).1
  = negb (registered childNodes typeName fieldName).
Proof.
  induction childNodes as [|tf rest IH]; simpl; [done|].
  destruct (String.eqb (TypeName tf) typeName); simpl.
  - by destruct (containsField fieldName (FieldNames tf)).
  - destruct (addChildTypeFieldName typeName fieldName rest); simpl in *. done.
Qed.

Lemma addChildTypeFieldName_not_added typeName fieldName childNodes :
  (addChildTypeFieldName typeName fieldName childNodes).1 = false →
  (addChildTypeFieldName typeName fieldName childNodes).2 = childNodes.
Proof.
  induction childNodes as [|tf rest IH]; simpl; [done|].
  destruct (String.eqb (TypeName tf) typeName); simpl.
  - by destruct (containsField fieldName (FieldNames tf)).
  - destruct (addChildTypeFieldName typeName fieldName rest); simpl in *.
    intros ->. by rewrite IH.
Qed.

(** After the call, exactly the old pairs and the new pair are registered. *)
Lemma addChildTypeFieldName_registered typeName fieldName childNodes t f :
  registered (addChildTypeFieldName typeName fieldName childNodes).2 t f
  = registered childNodes t f
    || (String.eqb typeName t && String.eqb fieldName f).
Proof.
  induction childNodes as [|tf rest IH]; simpl.
  - destruct (String.eqb typeName t); simpl; [|done].
    by destruct (String.eqb fieldName f).
  - destruct (String.eqb_spec (TypeName tf) typeName) as [Heq|Hne]; simpl.
    + destruct (containsField fieldName (FieldNames tf)) eqn:Hc; simpl.
      * rewrite Heq.
        destruct (String.eqb_spec typeName t) as [->|]; simpl;
          [|by rewrite orb_false_r].
        destruct (String.eqb_spec fieldName f) as [->|]; simpl;
          [by rewrite Hc | by rewrite orb_false_r].
      * rewrite Heq.
        destruct (String.eqb_spec typeName t) as [->|]; simpl;
          [|by rewrite orb_false_r].
        rewrite containsField_app. simpl.
        by destruct (String.eqb fieldName f).
    + destruct (addChildTypeFieldName typeName fieldName rest) as [added rest'].
      simpl in *.
      destruct (String.eqb_spec (TypeName tf) t) as [Heq'|]; simpl; [|done].
      destruct (String.eqb_spec typeName t) as [<-|]; [done|].
      by rewrite orb_false_r.
Qed.

Lemma addChildTypeFieldName_mono typeName fieldName childNodes t f :
  registered childNodes t f = true →
  registered (addChildTypeFieldName typeName fieldName childNodes).2 t f = true.
Proof. intros H. by rewrite addChildTypeFieldName_registered, H. Qed.

Lemma addChildTypeFieldName_self typeName fieldName childNodes :
  registered (addChildTypeFieldName typeName fieldName childNodes).2
    typeName fieldName = true.
Proof.
  rewrite addChildTypeFieldName_registered, !String.eqb_refl.
  apply orb_true_r.
Qed.

(** The type names of the slice after the call. *)
Lemma addChildTypeFieldName_TypeNames typeName fieldName childNodes :
  TypeName <$> (addChildTypeFieldName typeName fieldName childNodes).2
  = if bool_decide (typeName ∈ TypeName <$> childNodes)
    then TypeName <$> childNodes
    else (TypeName <$> childNodes) ++ [typeName].
Proof.
  induction childNodes as [|tf rest IH].
  - by rewrite bool_decide_eq_false_2 by (by intros ?%elem_of_nil).
  - cbn [addChildTypeFieldName].
    destruct (String.eqb_spec (TypeName tf) typeName) as [Heq|Hne];
      cbn [negb].
    + rewrite bool_decide_eq_true_2 by (rewrite fmap_cons, Heq; left).
      by destruct (containsField fieldName (FieldNames tf)).
    + destruct (addChildTypeFieldName typeName fieldName rest) as [added rest'].
      cbn [snd] in *. rewrite !fmap_cons, IH.
      destruct (decide (typeName ∈ TypeName <$> rest)) as [Hin|Hnin].
      * by rewrite !bool_decide_eq_true_2 by (done || by right).
      * rewrite !bool_decide_eq_false_2; [done | | done].
        by intros [?|?]%elem_of_cons.
Qed.

Lemma addChildTypeFieldName_wellFormed typeName fieldName childNodes :
  wellFormed childNodes →
  wellFormed (addChildTypeFieldName typeName fieldName childNodes).2.
Proof.
  intros [Hnames Hfields]. split.
  - rewrite addChildTypeFieldName_TypeNames. case_bool_decide; [done|].
    apply NoDup_app. split_and!; [done | | apply NoDup_singleton].
    intros x Hx ->%list_elem_of_singleton. done.
  - clear Hnames. induction Hfields as [|tf rest [Htf Hne] Hrest IH]; simpl.
    + constructor; [|constructor]. simpl. split; [apply NoDup_singleton|done].
    + destruct (String.eqb (TypeName tf) typeName); simpl.
      * destruct (containsField fieldName (FieldNames tf)) eqn:Hc.
        { by constructor. }
        constructor; [|done]. simpl. split.
        -- apply NoDup_app. split_and!; [done | | apply NoDup_singleton].
           intros x Hx ->%list_elem_of_singleton.
           apply containsField_elem_of in Hx. congruence.
        -- by intros [? _]%app_eq_nil.
      * destruct (addChildTypeFieldName typeName fieldName rest). simpl in *.
        by constructor.
Qed.

(** A registered pair sits in some record of the slice ... *)
Lemma registered_elem_of childNodes t f :
  registered childNodes t f = true →
  ∃ tf, tf ∈ childNodes ∧ TypeName tf = t ∧ f ∈ FieldNames tf.
Proof.
  induction childNodes as [|tf rest IH]; simpl; [discriminate|].
  destruct (String.eqb_spec (TypeName tf) t) as [Heq|Hne]; simpl.
  - intros Hc%containsField_elem_of. exists tf. split_and!; [left | done..].
  - intros (tf' & ? & ? & ?)%IH. exists tf'. split_and!; [by right | done..].
Qed.

(** ... and with one record per type name the converse holds. *)
Lemma elem_of_registered childNodes tf f :
  NoDup (TypeName <$> childNodes) →
  tf ∈ childNodes → f ∈ FieldNames tf →
  registered childNodes (TypeName tf) f = true.
Proof.
  induction childNodes as [|tf' rest IH]; simpl.
  - by intros _ ?%elem_of_nil.
  - intros [Hnin Hnd]%NoDup_cons [->|Hin]%elem_of_cons Hf.
    + rewrite String.eqb_refl. simpl. by apply containsField_elem_of.
    + destruct (String.eqb_spec (TypeName tf') (TypeName tf)) as [Heq|Hne];
        simpl; [|by apply IH].
      exfalso. apply Hnin. rewrite Heq. by apply list_elem_of_fmap_2.
Qed.

(** ** Counting with filters *)

Section FilterLength.

Context {A : Type} (P Q : A → Prop).
Context `{!∀ x, Decision (P x), !∀ x, Decision (Q x)}.

Lemma filter_length_mono (l : list A) :
  (∀ x, x ∈ l → Q x → P x) →
  (length (filter Q l) ≤ length (filter P l))%nat.
Proof.
  induction l as [|a l IH]; intros Himp; [done|].
  rewrite !filter_cons.
  assert (length (filter Q l) ≤ length (filter P l))%nat as Hle.
  { apply IH. intros x Hx. apply Himp. by right. }
  destruct (decide (Q a)) as [Hq|Hq].
  - rewrite decide_True by (apply Himp; [left | done]). simpl. lia.
  - destruct (decide (P a)); simpl; lia.
Qed.

Lemma filter_length_lt (l : list A) (x0 : A) :
  (∀ x, x ∈ l → Q x → P x) →
  x0 ∈ l → P x0 → ¬ Q x0 →
  (length (filter Q l) < length (filter P l))%nat.
Proof.
  induction l as [|a l IH]; intros Himp Hin Hp Hq.
  - by apply elem_of_nil in Hin.
  - rewrite !filter_cons.
    assert (∀ x, x ∈ l → Q x → P x) as Himp'.
    { intros x Hx. apply Himp. by right. }
    apply elem_of_cons in Hin as [<-|Hin].
    + destruct (decide (Q x0)); [done|]. destruct (decide (P x0)); [|done].
      simpl. pose proof (filter_length_mono l Himp'). lia.
    + specialize (IH Himp' Hin Hp Hq).
      destruct (decide (Q a)) as [Hqa|Hqa].
      * rewrite decide_True by (apply Himp; [left | done]). simpl. lia.
      * destruct (decide (P a)); simpl; lia.
Qed.

End FilterLength.

(** ** The walk: invariants and termination *)

Section Walk.

Variable d : Document.

Lemma pairUniverse_elem_of typeName node fieldRef :
  FirstNodeByNameStr (DocumentIndex d) typeName = Some node →
  fieldRef ∈ NodeFieldDefinitions d node →
  (typeName, FieldDefinitionNameString d fieldRef) ∈ pairUniverse d.
Proof.
  intros Hnode Href. unfold pairUniverse.
  apply list_elem_of_bind. exists (typeName, node). split.
  - by apply (list_elem_of_fmap_2
                (λ r, (typeName, FieldDefinitionNameString d r))).
  - by apply elem_of_map_to_list.
Qed.

(** Any property of the slice that registering a declared field keeps is
    kept by the loop over the field definitions ... *)
Lemma walkFieldDefinitions_invariant (P : list TypeField → Prop)
    recurse typeName fieldsRefs :
  (∀ t childNodes childNodes',
     P childNodes → recurse t childNodes = Some childNodes' → P childNodes') →
  (∀ fieldRef childNodes, fieldRef ∈ fieldsRefs → P childNodes →
     P (addChildTypeFieldName typeName
          (FieldDefinitionNameString d fieldRef) childNodes).2) →
  ∀ childNodes childNodes',
    P childNodes →
    walkFieldDefinitions recurse d typeName fieldsRefs childNodes
      = Some childNodes' →
    P childNodes'.
Proof.
  intros Hrec. induction fieldsRefs as [|fieldRef rest IH];
    intros Hadd childNodes childNodes' HP Hwalk; simpl in Hwalk.
  - by inversion Hwalk; subst.
  - assert (∀ r c, r ∈ rest → P c →
              P (addChildTypeFieldName typeName
                   (FieldDefinitionNameString d r) c).2) as Hadd'.
    { intros r c Hr. apply Hadd. by right. }
    specialize (Hadd fieldRef childNodes (list_elem_of_here _ _) HP).
    destruct (addChildTypeFieldName typeName
                (FieldDefinitionNameString d fieldRef) childNodes)
      as [added childNodes1].
    simpl in Hadd. destruct added; simpl in Hwalk.
    + destruct (recurse (fieldTypeName d fieldRef) childNodes1)
        as [childNodes2|] eqn:Hr; [|discriminate].
      apply (IH Hadd' childNodes2 childNodes'); [|done].
      exact (Hrec _ _ _ Hadd Hr).
    + by apply (IH Hadd' childNodes1 childNodes').
Qed.

(** ... and by the whole recursive walk. *)
Lemma findChildNodesForType_invariant (P : list TypeField → Prop) :
  (∀ typeName node fieldRef childNodes,
     FirstNodeByNameStr (DocumentIndex d) typeName = Some node →
     fieldRef ∈ NodeFieldDefinitions d node →
     P childNodes →
     P (addChildTypeFieldName typeName
          (FieldDefinitionNameString d fieldRef) childNodes).2) →
  ∀ fuel typeName childNodes childNodes',
    P childNodes →
    findChildNodesForType fuel d typeName childNodes = Some childNodes' →
    P childNodes'.
Proof.
  intros Hadd. induction fuel as [|fuel IH];
    intros typeName childNodes childNodes' HP Hfind; simpl in Hfind;
    [discriminate|].
  destruct (FirstNodeByNameStr (DocumentIndex d) typeName) as [node|] eqn:Hnode.
  - eapply walkFieldDefinitions_invariant; [apply IH | | done..].
    intros. by eapply Hadd.
  - by inversion Hfind; subst.
Qed.


Lemma unregistered_bound childNodes :
  (unregistered d childNodes < walkFuel d)%nat.
Proof.
  unfold unregistered, walkFuel.
  pose proof (length_filter
    (λ p, registered childNodes p.1 p.2 = false) (pairUniverse d)). lia.
Qed.

Lemma unregistered_mono childNodes childNodes' :
  (∀ t f, registered childNodes t f = true →
          registered childNodes' t f = true) →
  (unregistered d childNodes' ≤ unregistered d childNodes)%nat.
Proof.
  intros Hmono. apply filter_length_mono. intros [t f] _. simpl.
  intros Hf. destruct (registered childNodes t f) eqn:Hr; [|done].
  apply Hmono in Hr. congruence.
Qed.

Lemma unregistered_add_lt typeName fieldName childNodes :
  (typeName, fieldName) ∈ pairUniverse d →
  registered childNodes typeName fieldName = false →
  (unregistered d (addChildTypeFieldName typeName fieldName childNodes).2
   < unregistered d childNodes)%nat.
Proof.
  intros Hin Hreg.
  apply (filter_length_lt _ _ _ (typeName, fieldName)); [|done|done|].
  - intros [t f] _. simpl. intros Hf.
    destruct (registered childNodes t f) eqn:Hr; [|done].
    by rewrite addChildTypeFieldName_mono in Hf.
  - simpl. by rewrite addChildTypeFieldName_self.
Qed.

(** The walk only adds registrations. *)
Lemma findChildNodesForType_mono fuel typeName childNodes childNodes' :
  findChildNodesForType fuel d typeName childNodes = Some childNodes' →
  ∀ t f, registered childNodes t f = true → registered childNodes' t f = true.
Proof.
  intros Hfind t f Hreg.
  eapply (findChildNodesForType_invariant
            (λ c, registered c t f = true)); [|done..].
  intros. by apply addChildTypeFieldName_mono.
Qed.

(** Termination: a recursion depth above the number of pairs still to
    register is never exhausted. *)
Lemma findChildNodesForType_total fuel typeName childNodes :
  (unregistered d childNodes < fuel)%nat →
  is_Some (findChildNodesForType fuel d typeName childNodes).
Proof.
  revert typeName childNodes. induction fuel as [|fuel IH];
    intros typeName childNodes Hfuel; [lia|].
  simpl.
  destruct (FirstNodeByNameStr (DocumentIndex d) typeName) as [node|] eqn:Hnode;
    [|done].
  assert (∀ fieldRef, fieldRef ∈ NodeFieldDefinitions d node →
            (typeName, FieldDefinitionNameString d fieldRef) ∈ pairUniverse d)
    as Huniv by (intros; by eapply pairUniverse_elem_of).
  revert childNodes Hfuel Huniv.
  induction (NodeFieldDefinitions d node) as [|fieldRef rest IHrest];
    intros childNodes Hfuel Huniv; simpl; [done|].
  pose proof (addChildTypeFieldName_added typeName
                (FieldDefinitionNameString d fieldRef) childNodes) as Hadded.
  pose proof (addChildTypeFieldName_not_added typeName
                (FieldDefinitionNameString d fieldRef) childNodes) as Hsame.
  pose proof (unregistered_add_lt typeName
                (FieldDefinitionNameString d fieldRef) childNodes
                (Huniv _ (list_elem_of_here _ _))) as Hlt.
  destruct (addChildTypeFieldName typeName
              (FieldDefinitionNameString d fieldRef) childNodes)
    as [added childNodes1].
  simpl in *.
  assert (∀ r, r ∈ rest →
            (typeName, FieldDefinitionNameString d r) ∈ pairUniverse d)
    as Huniv' by (intros r Hr; apply Huniv; by right).
  destruct added; simpl.
  - assert (registered childNodes typeName
              (FieldDefinitionNameString d fieldRef) = false) as Hreg
      by (by destruct (registered childNodes typeName
                         (FieldDefinitionNameString d fieldRef))).
    specialize (Hlt Hreg).
    destruct (IH (fieldTypeName d fieldRef) childNodes1) as [childNodes2 Hrec];
      [lia|].
    rewrite Hrec. apply IHrest; [|done].
    pose proof (unregistered_mono childNodes1 childNodes2
                  (findChildNodesForType_mono _ _ _ _ Hrec)). lia.
  - rewrite Hsame by done. by apply IHrest.
Qed.

(** More fuel does not change a result. *)
Lemma findChildNodesForType_fuel_mono fuel fuel' typeName childNodes childNodes' :
  (fuel ≤ fuel')%nat →
  findChildNodesForType fuel d typeName childNodes = Some childNodes' →
  findChildNodesForType fuel' d typeName childNodes = Some childNodes'.
Proof.
  revert fuel' typeName childNodes childNodes'.
  induction fuel as [|fuel IH];
    intros fuel' typeName childNodes childNodes' Hle Hfind; [discriminate|].
  destruct fuel' as [|fuel']; [lia|]. simpl in *.
  destruct (FirstNodeByNameStr (DocumentIndex d) typeName) as [node|];
    [|done].
  revert childNodes Hfind.
  induction (NodeFieldDefinitions d node) as [|fieldRef rest IHrest];
    intros childNodes Hfind; simpl in *; [done|].
  destruct (addChildTypeFieldName typeName
              (FieldDefinitionNameString d fieldRef) childNodes)
    as [added childNodes1].
  destruct added; simpl in *; [|by apply IHrest].
  destruct (findChildNodesForType fuel d (fieldTypeName d fieldRef) childNodes1)
    as [childNodes2|] eqn:Hrec; [|discriminate].
  rewrite (IH fuel' _ _ _ ltac:(lia) Hrec). by apply IHrest.
Qed.

End Walk.

(** ** The loops of [getAllChildNodes] *)

Section ChildNodes.

Variable d : Document.


Lemma walkRootFieldNames_invariant (P : list TypeField → Prop) :
  keptByRegistration d P →
  ∀ fuel fieldNameToRef fieldNames childNodes childNodes',
    P childNodes →
    walkRootFieldNames fuel d fieldNameToRef fieldNames childNodes
      = Some childNodes' →
    P childNodes'.
Proof.
  intros Hkept fuel fieldNameToRef fieldNames.
  induction fieldNames as [|fieldName rest IH];
    intros childNodes childNodes' HP Hwalk; simpl in Hwalk.
  - by inversion Hwalk; subst.
  - destruct (findChildNodesForType fuel d _ childNodes)
      as [childNodes1|] eqn:Hfind; [|discriminate].
    apply (IH childNodes1 childNodes'); [|done].
    exact (findChildNodesForType_invariant d P Hkept _ _ _ _ HP Hfind).
Qed.

Lemma walkRootNodes_invariant (P : list TypeField → Prop) :
  keptByRegistration d P →
  ∀ fuel rootNodes childNodes childNodes',
    P childNodes →
    walkRootNodes fuel d rootNodes childNodes = Some childNodes' →
    P childNodes'.
Proof.
  intros Hkept fuel rootNodes.
  induction rootNodes as [|rootNode rest IH];
    intros childNodes childNodes' HP Hwalk; simpl in Hwalk.
  - by inversion Hwalk; subst.
  - destruct (FirstNodeByNameStr (DocumentIndex d) (TypeName rootNode))
      as [rootNodeASTNode|]; [|by apply (IH childNodes childNodes')].
    destruct (walkRootFieldNames fuel d _ (FieldNames rootNode) childNodes)
      as [childNodes1|] eqn:Hnames; [|discriminate].
    apply (IH childNodes1 childNodes'); [|done].
    exact (walkRootFieldNames_invariant P Hkept _ _ _ _ _ HP Hnames).
Qed.

Lemma walkRootFieldNames_total fuel fieldNameToRef fieldNames childNodes :
  (walkFuel d ≤ fuel)%nat →
  is_Some (walkRootFieldNames fuel d fieldNameToRef fieldNames childNodes).
Proof.
  intros Hfuel. revert childNodes.
  induction fieldNames as [|fieldName rest IH]; intros childNodes; simpl;
    [done|].
  destruct (findChildNodesForType_total d fuel
              (fieldTypeName d (mapIndex fieldNameToRef fieldName)) childNodes)
    as [childNodes1 ->]; [|apply IH].
  pose proof (unregistered_bound d childNodes). lia.
Qed.

Lemma walkRootNodes_total fuel rootNodes childNodes :
  (walkFuel d ≤ fuel)%nat →
  is_Some (walkRootNodes fuel d rootNodes childNodes).
Proof.
  intros Hfuel. revert childNodes.
  induction rootNodes as [|rootNode rest IH]; intros childNodes; simpl;
    [done|].
  destruct (FirstNodeByNameStr (DocumentIndex d) (TypeName rootNode))
    as [rootNodeASTNode|]; [|apply IH].
  destruct (walkRootFieldNames_total fuel
              (buildFieldNameToRef d (NodeFieldDefinitions d rootNodeASTNode) ∅)
              (FieldNames rootNode) childNodes Hfuel)
    as [childNodes1 ->].
  apply IH.
Qed.

Lemma walkRootFieldNames_fuel_mono fuel fuel' fieldNameToRef fieldNames
    childNodes childNodes' :
  (fuel ≤ fuel')%nat →
  walkRootFieldNames fuel d fieldNameToRef fieldNames childNodes
    = Some childNodes' →
  walkRootFieldNames fuel' d fieldNameToRef fieldNames childNodes
    = Some childNodes'.
Proof.
  intros Hle. revert childNodes.
  induction fieldNames as [|fieldName rest IH]; intros childNodes Hwalk;
    simpl in *; [done|].
  destruct (findChildNodesForType fuel d _ childNodes)
    as [childNodes1|] eqn:Hfind; [|discriminate].
  rewrite (findChildNodesForType_fuel_mono d _ _ _ _ _ Hle Hfind).
  by apply IH.
Qed.

Lemma walkRootNodes_fuel_mono fuel fuel' rootNodes childNodes childNodes' :
  (fuel ≤ fuel')%nat →
  walkRootNodes fuel d rootNodes childNodes = Some childNodes' →
  walkRootNodes fuel' d rootNodes childNodes = Some childNodes'.
Proof.
  intros Hle. revert childNodes.
  induction rootNodes as [|rootNode rest IH]; intros childNodes Hwalk;
    simpl in *; [done|].
  destruct (FirstNodeByNameStr (DocumentIndex d) (TypeName rootNode))
    as [rootNodeASTNode|]; [|by apply IH].
  destruct (walkRootFieldNames fuel d _ (FieldNames rootNode) childNodes)
    as [childNodes1|] eqn:Hnames; [|discriminate].
  rewrite (walkRootFieldNames_fuel_mono _ _ _ _ _ _ Hle Hnames).
  by apply IH.
Qed.

(** [getAllChildNodes] is the result of the walk at every sufficient
    recursion depth: the bound [walkFuel] is never hit. *)
Lemma getAllChildNodes_fuel fuel rootNodes :
  (walkFuel d ≤ fuel)%nat →
  walkRootNodes fuel d rootNodes [] = Some (getAllChildNodes d rootNodes).
Proof.
  intros Hle. unfold getAllChildNodes.
  destruct (walkRootNodes_total (walkFuel d) rootNodes [] (le_n _))
    as [childNodes Hwalk].
  rewrite Hwalk. simpl. by eapply walkRootNodes_fuel_mono.
Qed.

Lemma getAllChildNodes_invariant (P : list TypeField → Prop) rootNodes :
  keptByRegistration d P → P [] → P (getAllChildNodes d rootNodes).
Proof.
  intros Hkept Hnil.
  exact (walkRootNodes_invariant P Hkept _ _ _ _ Hnil
           (getAllChildNodes_fuel _ rootNodes (le_n _))).
Qed.

Lemma getAllChildNodes_wellFormed rootNodes :
  wellFormed (getAllChildNodes d rootNodes).
Proof.
  apply getAllChildNodes_invariant.
  - intros typeName node fieldRef childNodes _ _.
    apply addChildTypeFieldName_wellFormed.
  - split; constructor.
Qed.

End ChildNodes.

(** ** The root set *)

Section RootNodes.

Variable env : Collaborators.
Variable d : Document.


Lemma collectFieldNames_filter fieldRefs fieldNames :
  collectFieldNames d fieldRefs fieldNames
  = fieldNames
    ++ (FieldDefinitionNameString d
          <$> filter
                (λ fieldRef,
                   FieldDefinitionHasNamedDirective d fieldRef
                     federationExternalDirectiveName = false)
                fieldRefs).
Proof.
  revert fieldNames. induction fieldRefs as [|fieldRef rest IH];
    intros fieldNames; simpl.
  - by rewrite app_nil_r.
  - rewrite filter_cons.
    destruct (FieldDefinitionHasNamedDirective d fieldRef
                federationExternalDirectiveName) eqn:Hext.
    + rewrite decide_False by done. apply IH.
    + rewrite decide_True by done. rewrite IH, fmap_cons.
      by rewrite <- app_assoc.
Qed.

Lemma collectFieldNames_local astNode :
  collectFieldNames d (NodeFieldDefinitions d astNode) []
  = localFieldNames d astNode.
Proof. by rewrite collectFieldNames_filter. Qed.

Lemma addRootNodes_rootRecord astNode rootNodes :
  isObjectTypeNode astNode = true →
  addRootNodes env d astNode rootNodes
  = rootNodes ++ option_list (rootRecord env d astNode).
Proof.
  intros Hkind. unfold addRootNodes, rootRecord, isRootOperationType.
  rewrite Hkind, collectFieldNames_local. simpl.
  replace (match baseSchema env d with
           | Some document' =>
               negb (IsRootOperationTypeNameString (DocumentIndex document')
                       (NodeNameString d astNode))
           | None => true
           end)
    with (negb (isRootOperationType (baseSchema env d)
                  (NodeNameString d astNode)))
    by (unfold isRootOperationType; by destruct (baseSchema env d)).
  fold (isRootOperationType (baseSchema env d) (NodeNameString d astNode)).
  destruct (isEntity d astNode); simpl.
  - destruct (localFieldNames d astNode) as [|f fs] eqn:Hnames; simpl.
    + by rewrite app_nil_r.
    + done.
  - destruct (isRootOperationType (baseSchema env d) (NodeNameString d astNode));
      simpl; [|by rewrite app_nil_r].
    destruct (localFieldNames d astNode) as [|f fs] eqn:Hnames; simpl.
    + by rewrite app_nil_r.
    + done.
Qed.

Lemma rootRecord_not_object astNode :
  isObjectTypeNode astNode = false → rootRecord env d astNode = None.
Proof. intros Hkind. unfold rootRecord. by rewrite Hkind. Qed.

Lemma collectRootNodes_omap astNodes rootNodes :
  collectRootNodes env d astNodes rootNodes
  = rootNodes ++ omap (rootRecord env d) astNodes.
Proof.
  revert rootNodes. induction astNodes as [|astNode rest IH];
    intros rootNodes; simpl.
  - by rewrite app_nil_r.
  - destruct (isObjectTypeNode astNode) eqn:Hkind.
    + rewrite IH, addRootNodes_rootRecord by done.
      rewrite <- app_assoc. f_equal.
      by destruct (rootRecord env d astNode).
    + rewrite IH, rootRecord_not_object by done. done.
Qed.

(** The root set holds one record per emitting top-level node, in the
    order of the document. *)
Lemma getAllRootNodes_omap :
  getAllRootNodes env d = omap (rootRecord env d) (RootNodes d).
Proof. unfold getAllRootNodes. by rewrite collectRootNodes_omap. Qed.

Lemma getAllRootNodes_elem_of tf :
  tf ∈ getAllRootNodes env d ↔
  ∃ astNode, astNode ∈ RootNodes d ∧ rootRecord env d astNode = Some tf.
Proof. rewrite getAllRootNodes_omap. apply list_elem_of_omap. Qed.

Lemma rootRecord_Some astNode tf :
  rootRecord env d astNode = Some tf →
  isObjectTypeNode astNode = true ∧
  (isEntity d astNode = true ∨
   isRootOperationType (baseSchema env d) (NodeNameString d astNode) = true) ∧
  localFieldNames d astNode ≠ [] ∧
  tf = mkTypeField (NodeNameString d astNode) (localFieldNames d astNode).
Proof.
  unfold rootRecord.
  destruct (isObjectTypeNode astNode); simpl; [|discriminate].
  destruct (isEntity d astNode) eqn:He; simpl.
  - case_bool_decide; simpl; [discriminate|].
    intros [= <-]. split_and!; auto.
  - destruct (isRootOperationType _ _); simpl; [|discriminate].
    case_bool_decide; simpl; [discriminate|].
    intros [= <-]. split_and!; auto.
Qed.

End RootNodes.

(** ** Completeness of the walk *)

Section Closure.

Variable d : Document.


Lemma fullyRegistered_mono childNodes childNodes' typeName :
  (∀ t f, registered childNodes t f = true →
          registered childNodes' t f = true) →
  fullyRegistered d childNodes typeName → fullyRegistered d childNodes' typeName.
Proof. intros Hmono Hfull node fieldRef Hnode Href. eauto. Qed.

Lemma find_first_fresh (p : Z → bool) (done : list Z) (r : Z) (todo : list Z) :
  (∀ r0, r0 ∈ done → p r0 = false) → p r = true →
  List.find p (done ++ r :: todo) = Some r.
Proof.
  intros Hdone Hr. induction done as [|r0 done IH]; simpl.
  - by rewrite Hr.
  - rewrite (Hdone r0) by left. apply IH. intros r1 Hr1. apply Hdone.
    by right.
Qed.

Lemma firstFieldRef_elem_of node fieldName fieldRef :
  firstFieldRef d node fieldName = Some fieldRef →
  fieldRef ∈ NodeFieldDefinitions d node ∧
  FieldDefinitionNameString d fieldRef = fieldName.
Proof.
  unfold firstFieldRef. intros [Hin Heq]%List.find_some. split.
  - by apply list_elem_of_In.
  - by apply String.eqb_eq.
Qed.

(** The loop over the field definitions of [typeName], entered with the
    definitions in [done] already handled. *)
Lemma walkFieldDefinitions_closed fuel pending typeName node :
  FirstNodeByNameStr (DocumentIndex d) typeName = Some node →
  (∀ t pending' childNodes childNodes',
     findChildNodesForType fuel d t childNodes = Some childNodes' →
     closedUpTo d (t :: pending') childNodes →
     closedUpTo d pending' childNodes' ∧ fullyRegistered d childNodes' t) →
  ∀ todo done childNodes childNodes',
    NodeFieldDefinitions d node = done ++ todo →
    closedUpTo d (typeName :: pending) childNodes →
    (∀ r, r ∈ done →
       registered childNodes typeName (FieldDefinitionNameString d r) = true) →
    walkFieldDefinitions (findChildNodesForType fuel d) d typeName todo
      childNodes = Some childNodes' →
    closedUpTo d (typeName :: pending) childNodes' ∧
    (∀ r, r ∈ NodeFieldDefinitions d node →
       registered childNodes' typeName (FieldDefinitionNameString d r) = true).
Proof.
  intros Hnode Hrec. induction todo as [|fieldRef rest IH];
    intros done childNodes childNodes' Hsplit Hclosed Hdone Hwalk;
    simpl in Hwalk.
  - inversion Hwalk; subst. rewrite app_nil_r in Hsplit.
    split; [done|]. by rewrite Hsplit.
  - pose proof (addChildTypeFieldName_added typeName
                  (FieldDefinitionNameString d fieldRef) childNodes) as Hadded.
    pose proof (addChildTypeFieldName_not_added typeName
                  (FieldDefinitionNameString d fieldRef) childNodes) as Hsame.
    pose proof (addChildTypeFieldName_registered typeName
                  (FieldDefinitionNameString d fieldRef) childNodes) as Hreg.
    destruct (addChildTypeFieldName typeName
                (FieldDefinitionNameString d fieldRef) childNodes)
      as [added childNodes1].
    simpl in *.
    assert (NodeFieldDefinitions d node = (done ++ [fieldRef]) ++ rest)
      as Hsplit' by (by rewrite <- app_assoc).
    destruct added; simpl in Hwalk.
    + assert (registered childNodes typeName
                (FieldDefinitionNameString d fieldRef) = false) as Hfresh
        by (by destruct (registered childNodes typeName
                           (FieldDefinitionNameString d fieldRef))).
      assert (∀ t f, registered childNodes t f = true →
                     registered childNodes1 t f = true) as Hmono1.
      { intros t f Htf. by rewrite Hreg, Htf. }
      assert (firstFieldRef d node (FieldDefinitionNameString d fieldRef)
              = Some fieldRef) as Hfirst.
      { unfold firstFieldRef. rewrite Hsplit. apply find_first_fresh.
        - intros r0 Hr0. apply String.eqb_neq. intros Heq.
          specialize (Hdone r0 Hr0). rewrite Heq in Hdone. congruence.
        - apply String.eqb_refl. }
      assert (closedUpTo d (fieldTypeName d fieldRef :: typeName :: pending)
                childNodes1) as Hclosed1.
      { intros t f Htf. rewrite Hreg in Htf.
        apply orb_true_iff in Htf as [Hold|Hnew].
        - destruct (Hclosed t f Hold) as (n & r & Hn & Hr & [Hfull|Hpend]).
          + exists n, r. split_and!; [done..|]. left.
            by eapply fullyRegistered_mono.
          + exists n, r. split_and!; [done..|]. right. by right.
        - apply andb_true_iff in Hnew as [<-%String.eqb_eq <-%String.eqb_eq].
          exists node, fieldRef. split_and!; [done..|]. right. left. }
      destruct (findChildNodesForType fuel d (fieldTypeName d fieldRef)
                  childNodes1) as [childNodes2|] eqn:Hfind; [|discriminate].
      destruct (Hrec _ _ _ _ Hfind Hclosed1) as [Hclosed2 _].
      apply (IH (done ++ [fieldRef]) childNodes2 childNodes'); [done..| |done].
      intros r [Hr| ->%list_elem_of_singleton]%elem_of_app.
      * eapply findChildNodesForType_mono; [done|]. by apply Hmono1, Hdone.
      * eapply findChildNodesForType_mono; [done|].
        by rewrite Hreg, !String.eqb_refl, orb_true_r.
    + rewrite Hsame in * by done.
      apply (IH (done ++ [fieldRef]) childNodes childNodes'); [done..| |done].
      intros r [Hr| ->%list_elem_of_singleton]%elem_of_app; [by apply Hdone|].
      by destruct (registered childNodes typeName
                     (FieldDefinitionNameString d fieldRef)).
Qed.

(** A call of [findChildNodesForType] leaves its type fully registered and
    settles every registration it made. *)
Lemma findChildNodesForType_closed fuel :
  ∀ typeName pending childNodes childNodes',
    findChildNodesForType fuel d typeName childNodes = Some childNodes' →
    closedUpTo d (typeName :: pending) childNodes →
    closedUpTo d pending childNodes' ∧ fullyRegistered d childNodes' typeName.
Proof.
  induction fuel as [|fuel IH];
    intros typeName pending childNodes childNodes' Hfind Hclosed;
    simpl in Hfind; [discriminate|].
  destruct (FirstNodeByNameStr (DocumentIndex d) typeName) as [node|] eqn:Hnode.
  - destruct (walkFieldDefinitions_closed fuel pending typeName node Hnode IH
                (NodeFieldDefinitions d node) [] childNodes childNodes')
      as [Hclosed' Hall]; [done | done | by intros r ?%elem_of_nil | done |].
    assert (fullyRegistered d childNodes' typeName) as Hfull.
    { intros node' r Hnode' Hr. rewrite Hnode in Hnode'.
      inversion Hnode'; subst. by apply Hall. }
    split; [|done].
    intros t f Htf.
    destruct (Hclosed' t f Htf) as (n & r & Hn & Hr & [Hf|Hpend]).
    + exists n, r. by split_and!; [..|left].
    + exists n, r. split_and!; [done..|].
      apply elem_of_cons in Hpend as [->|Hpend]; [by left | by right].
  - inversion Hfind; subst. split.
    + intros t f Htf.
      destruct (Hclosed t f Htf) as (n & r & Hn & Hr & [Hf|Hpend]).
      * exists n, r. by split_and!; [..|left].
      * exists n, r. split_and!; [done..|].
        apply elem_of_cons in Hpend as [->|Hpend]; [|by right].
        left. intros node' r' Hnode'. congruence.
    + intros node' r' Hnode'. congruence.
Qed.

Lemma closedUpTo_weaken pending typeName childNodes :
  closedUpTo d pending childNodes → closedUpTo d (typeName :: pending) childNodes.
Proof.
  intros Hclosed t f Htf.
  destruct (Hclosed t f Htf) as (n & r & Hn & Hr & [Hf|Hpend]);
    exists n, r; (split_and!; [done..|]); [by left | right; by right].
Qed.

End Closure.

(** ** What the child set holds *)

Section ChildSet.

Variable d : Document.


Lemma registered_keptByRegistration t f :
  keptByRegistration d (λ childNodes, registered childNodes t f = true).
Proof.
  intros typeName node fieldRef childNodes _ _.
  apply addChildTypeFieldName_mono.
Qed.

Lemma walkRootFieldNames_closed fuel fieldNameToRef fieldNames :
  ∀ childNodes childNodes',
    closedUpTo d [] childNodes →
    walkRootFieldNames fuel d fieldNameToRef fieldNames childNodes
      = Some childNodes' →
    closedUpTo d [] childNodes' ∧
    ∀ fieldName, fieldName ∈ fieldNames →
      fullyRegistered d childNodes'
        (fieldTypeName d (mapIndex fieldNameToRef fieldName)).
Proof.
  induction fieldNames as [|fieldName rest IH];
    intros childNodes childNodes' Hclosed Hwalk; simpl in Hwalk.
  - inversion Hwalk; subst. split; [done|]. by intros f ?%elem_of_nil.
  - destruct (findChildNodesForType fuel d _ childNodes)
      as [childNodes1|] eqn:Hfind; [|discriminate].
    destruct (findChildNodesForType_closed d fuel _ [] _ _ Hfind
                (closedUpTo_weaken d _ _ _ Hclosed)) as [Hclosed1 Hfull1].
    destruct (IH _ _ Hclosed1 Hwalk) as [Hclosed' Hfull'].
    split; [done|].
    intros f [->|Hf]%elem_of_cons; [|by apply Hfull'].
    eapply fullyRegistered_mono; [|done].
    intros t f' Htf.
    exact (walkRootFieldNames_invariant d _ (registered_keptByRegistration t f')
             _ _ _ _ _ Htf Hwalk).
Qed.

Lemma walkRootNodes_closed fuel rootNodes :
  ∀ childNodes childNodes',
    closedUpTo d [] childNodes →
    walkRootNodes fuel d rootNodes childNodes = Some childNodes' →
    closedUpTo d [] childNodes' ∧
    ∀ rootNode rootNodeASTNode fieldName,
      rootNode ∈ rootNodes →
      FirstNodeByNameStr (DocumentIndex d) (TypeName rootNode)
        = Some rootNodeASTNode →
      fieldName ∈ FieldNames rootNode →
      fullyRegistered d childNodes'
        (rootFieldTypeName d rootNodeASTNode fieldName).
Proof.
  induction rootNodes as [|rootNode rest IH];
    intros childNodes childNodes' Hclosed Hwalk; simpl in Hwalk.
  - inversion Hwalk; subst. split; [done|]. by intros ??? ?%elem_of_nil.
  - destruct (FirstNodeByNameStr (DocumentIndex d) (TypeName rootNode))
      as [rootNodeASTNode|] eqn:Hnode.
    + destruct (walkRootFieldNames fuel d _ (FieldNames rootNode) childNodes)
        as [childNodes1|] eqn:Hnames; [|discriminate].
      destruct (walkRootFieldNames_closed _ _ _ _ _ Hclosed Hnames)
        as [Hclosed1 Hfull1].
      destruct (IH _ _ Hclosed1 Hwalk) as [Hclosed' Hfull'].
      split; [done|].
      intros rf rn f [->|Hrf]%elem_of_cons Hrn Hf; [|by eapply Hfull'].
      rewrite Hnode in Hrn. inversion Hrn; subst rn.
      eapply fullyRegistered_mono; [|by apply Hfull1].
      intros t f' Htf.
      exact (walkRootNodes_invariant d _ (registered_keptByRegistration t f')
               _ _ _ _ Htf Hwalk).
    + destruct (IH _ _ Hclosed Hwalk) as [Hclosed' Hfull'].
      split; [done|].
      intros rf rn f [->|Hrf]%elem_of_cons Hrn Hf; [congruence|].
      by eapply Hfull'.
Qed.

Lemma closedUpTo_nil pending : closedUpTo d pending [].
Proof. intros t f Htf. discriminate. Qed.

Lemma getAllChildNodes_closed rootNodes :
  closedUpTo d [] (getAllChildNodes d rootNodes).
Proof.
  exact (proj1 (walkRootNodes_closed _ _ _ _ (closedUpTo_nil [])
                  (getAllChildNodes_fuel d _ rootNodes (le_n _)))).
Qed.

Lemma getAllChildNodes_entry rootNodes rootNode rootNodeASTNode fieldName :
  rootNode ∈ rootNodes →
  FirstNodeByNameStr (DocumentIndex d) (TypeName rootNode)
    = Some rootNodeASTNode →
  fieldName ∈ FieldNames rootNode →
  fullyRegistered d (getAllChildNodes d rootNodes)
    (rootFieldTypeName d rootNodeASTNode fieldName).
Proof.
  exact (proj2 (walkRootNodes_closed _ _ _ _ (closedUpTo_nil [])
                  (getAllChildNodes_fuel d _ rootNodes (le_n _)))
           rootNode rootNodeASTNode fieldName).
Qed.

(** Every field name of every record of the child set is the name of a
    field definition of the type the record is for. *)
Lemma getAllChildNodes_declared rootNodes tf :
  tf ∈ getAllChildNodes d rootNodes →
  ∃ node,
    FirstNodeByNameStr (DocumentIndex d) (TypeName tf) = Some node ∧
    ∀ f, f ∈ FieldNames tf →
      ∃ fieldRef, fieldRef ∈ NodeFieldDefinitions d node ∧
                  FieldDefinitionNameString d fieldRef = f.
Proof.
  intros Htf.
  destruct (getAllChildNodes_wellFormed d rootNodes) as [Hnames Hfields].
  assert (∀ f, f ∈ FieldNames tf →
            ∃ node fieldRef,
              FirstNodeByNameStr (DocumentIndex d) (TypeName tf) = Some node ∧
              fieldRef ∈ NodeFieldDefinitions d node ∧
              FieldDefinitionNameString d fieldRef = f) as Hdecl.
  { intros f Hf.
    destruct (getAllChildNodes_closed rootNodes (TypeName tf) f
                (elem_of_registered _ _ _ Hnames Htf Hf))
      as (node & r & Hnode & [Hr Hname]%firstFieldRef_elem_of & _).
    by exists node, r. }
  rewrite Forall_forall in Hfields. destruct (Hfields tf Htf) as [_ Hne].
  destruct (FieldNames tf) as [|f0 fs] eqn:Hfs; [done|].
  destruct (Hdecl f0 (list_elem_of_here _ _)) as (node & _ & Hnode & _).
  exists node. split; [done|]. intros f Hf.
  destruct (Hdecl f Hf) as (node' & r & Hnode' & Hr & Hname).
  exists r. split; [|done]. congruence.
Qed.


Lemma walked_fullyRegistered rootNodes typeName :
  walked d rootNodes typeName →
  fullyRegistered d (getAllChildNodes d rootNodes) typeName.
Proof.
  induction 1 as [rf rn f Hrf Hrn Hf | t node f r Hwalked IH Hnode Hfirst].
  - by eapply getAllChildNodes_entry.
  - pose proof Hfirst as [Hr Hname]%firstFieldRef_elem_of.
    specialize (IH node r Hnode Hr). rewrite Hname in IH.
    destruct (getAllChildNodes_closed rootNodes t f IH)
      as (node' & r' & Hnode' & Hfirst' & [Hfull|[]%elem_of_nil]).
    assert (node' = node) as -> by congruence.
    assert (r' = r) as -> by congruence.
    done.
Qed.

End ChildSet.

(** ** Properties of the root set *)

Lemma isEntity_true d astNode :
  isEntity d astNode = true ↔
  ∃ directiveRef,
    directiveRef ∈ NodeDirectives d astNode ∧
    DirectiveNameString d directiveRef = federationKeyDirectiveName.
Proof.
  unfold isEntity. rewrite existsb_exists. split.
  - intros (r & Hr%list_elem_of_In & Heq%String.eqb_eq). eauto.
  - intros (r & Hr%list_elem_of_In & Heq%String.eqb_eq). eauto.
Qed.

Lemma localFieldRefs_elem_of d astNode fieldRef :
  fieldRef ∈ localFieldRefs d astNode ↔
  fieldRef ∈ NodeFieldDefinitions d astNode ∧
  FieldDefinitionHasNamedDirective d fieldRef federationExternalDirectiveName
    = false.
Proof. unfold localFieldRefs. rewrite list_elem_of_filter. tauto. Qed.

(** C4.  Every record of the root set comes from a top-level node of the
    document and lists, in declaration order, the names of exactly those
    field definitions of the node that carry no [external] directive: a
    field definition carrying [external] never contributes an entry, and
    its name is absent from the record unless the node also declares a
    field of that name without the directive. *)
Theorem external_fields_excluded_from_root
    (env : Collaborators) (d : Document) (tf : TypeField) :
  tf ∈ (GetAllNodes env d).1 →
  ∃ astNode,
    astNode ∈ RootNodes d ∧
    TypeName tf = NodeNameString d astNode ∧
    FieldNames tf = FieldDefinitionNameString d <$> localFieldRefs d astNode ∧
    (∀ fieldRef,
       fieldRef ∈ localFieldRefs d astNode ↔
       fieldRef ∈ NodeFieldDefinitions d astNode ∧
       FieldDefinitionHasNamedDirective d fieldRef "external" = false) ∧
    (∀ fieldRef,
       fieldRef ∈ NodeFieldDefinitions d astNode →
       FieldDefinitionHasNamedDirective d fieldRef "external" = true →
       (∀ fieldRef',
          fieldRef' ∈ NodeFieldDefinitions d astNode →
          FieldDefinitionNameString d fieldRef'
            = FieldDefinitionNameString d fieldRef →
          FieldDefinitionHasNamedDirective d fieldRef' "external" = true) →
       FieldDefinitionNameString d fieldRef ∉ FieldNames tf).
Proof.
  simpl. intros (astNode & Hnode & Hrec)%getAllRootNodes_elem_of.
  apply rootRecord_Some in Hrec as (_ & _ & _ & ->). simpl.
  exists astNode. split_and!; [done..| |].
  - apply localFieldRefs_elem_of.
  - intros r Hr Hext Hall (r' & Hname & Hr')%list_elem_of_fmap.
    apply localFieldRefs_elem_of in Hr' as [Hr' Hloc].
    unfold federationExternalDirectiveName in Hloc.
    rewrite (Hall r' Hr') in Hloc; [done|]. by symmetry.
Qed.

Lemma external_fields_excluded_from_root_witness :
  ∃ astNode,
    astNode ∈ RootNodes scenarioDocument ∧
    NodeNameString scenarioDocument astNode = "Foo" ∧
    FieldDefinitionNameString scenarioDocument
      <$> localFieldRefs scenarioDocument astNode = ["id"; "b"] ∧
    "secret" ∉ ["id"; "b"].
Proof.
  destruct (external_fields_excluded_from_root queryResolver scenarioDocument
              (mkTypeField "Foo" ["id"; "b"]))
    as (astNode & Hnode & Hname & Hfields & _ & _).
  { vm_compute. apply list_elem_of_In. right. left. reflexivity. }
  exists astNode. split_and!.
  - exact Hnode.
  - symmetry. exact Hname.
  - symmetry. exact Hfields.
  - intros H. apply list_elem_of_In in H. simpl in H.
    destruct H as [H|[H|[]]]; discriminate H.
Defined.

(** C5 fails for a top-level type that is not an object type: an interface
    that carries [key] and has a field without [external] is passed over by
    [getAllRootNodes], which hands only object type definitions and
    extensions to [addRootNodes]. *)
Lemma keyed_interface_missing_from_root_set :
  baseSchema failingResolver interfaceDocument = None ∧
  ¬ (∀ astNode,
       astNode ∈ RootNodes interfaceDocument →
       (∃ directiveRef,
          directiveRef ∈ NodeDirectives interfaceDocument astNode ∧
          DirectiveNameString interfaceDocument directiveRef = "key") →
       (∃ fieldRef,
          fieldRef ∈ NodeFieldDefinitions interfaceDocument astNode ∧
          FieldDefinitionHasNamedDirective interfaceDocument fieldRef
            "external" = false) →
       mkTypeField (NodeNameString interfaceDocument astNode)
         (FieldDefinitionNameString interfaceDocument
            <$> localFieldRefs interfaceDocument astNode)
       ∈ (GetAllNodes failingResolver interfaceDocument).1).
Proof.
  split; [reflexivity|]. intros Hall.
  specialize (Hall (mkNode NodeKindInterfaceTypeDefinition 0)).
  assert (mkTypeField "Node" ["id"]
          ∈ (GetAllNodes failingResolver interfaceDocument).1) as Hin.
  { apply Hall.
    - apply list_elem_of_In. left. reflexivity.
    - exists 0. split; [|reflexivity].
      apply list_elem_of_In. left. reflexivity.
    - exists 0. split; [|reflexivity].
      apply list_elem_of_In. left. reflexivity. }
  apply list_elem_of_In in Hin. vm_compute in Hin. exact Hin.
Qed.

(** C5, amended.  When the base-schema resolution fails, the extraction
    still returns its two lists, and a top-level object type definition or
    object type extension that carries a directive named [key] and has at
    least one field definition without [external] is in the root set, with
    the names of its field definitions without [external].  Root detection
    has then degraded to entities only: every record of the root set comes
    from a node carrying [key]. *)
Theorem entities_survive_resolution_failure
    (env : Collaborators) (d : Document) :
  baseSchema env d = None →
  (∀ astNode,
     astNode ∈ RootNodes d →
     isObjectTypeNode astNode = true →
     (∃ directiveRef,
        directiveRef ∈ NodeDirectives d astNode ∧
        DirectiveNameString d directiveRef = "key") →
     (∃ fieldRef,
        fieldRef ∈ NodeFieldDefinitions d astNode ∧
        FieldDefinitionHasNamedDirective d fieldRef "external" = false) →
     mkTypeField (NodeNameString d astNode)
       (FieldDefinitionNameString d <$> localFieldRefs d astNode)
     ∈ (GetAllNodes env d).1) ∧
  (∀ tf,
     tf ∈ (GetAllNodes env d).1 →
     ∃ astNode directiveRef,
       astNode ∈ RootNodes d ∧
       directiveRef ∈ NodeDirectives d astNode ∧
       DirectiveNameString d directiveRef = "key" ∧
       tf = mkTypeField (NodeNameString d astNode)
              (FieldDefinitionNameString d <$> localFieldRefs d astNode)).
Proof.
  intros Hfail. split.
  - intros astNode Hnode Hkind Hkey%isEntity_true (r & Hr).
    apply (localFieldRefs_elem_of d astNode r) in Hr.
    simpl. apply getAllRootNodes_elem_of. exists astNode. split; [done|].
    unfold rootRecord. rewrite Hkind, Hkey. simpl.
    rewrite bool_decide_eq_false_2; [done|].
    unfold localFieldNames. intros Hnil%fmap_nil_inv.
    rewrite Hnil in Hr. by apply elem_of_nil in Hr.
  - simpl. intros tf (astNode & Hnode & Hrec)%getAllRootNodes_elem_of.
    apply rootRecord_Some in Hrec as (_ & [Hkey|Hroot] & _ & ->).
    + apply isEntity_true in Hkey as (r & Hr & Hname).
      by exists astNode, r.
    + rewrite Hfail in Hroot. discriminate.
Qed.

Lemma entities_survive_resolution_failure_witness :
  baseSchema failingResolver scenarioDocument = None ∧
  mkTypeField "Foo" ["id"; "b"]
  ∈ (GetAllNodes failingResolver scenarioDocument).1.
Proof.
  split; [reflexivity|].
  apply (proj1 (entities_survive_resolution_failure failingResolver
                  scenarioDocument eq_refl)
           (mkNode NodeKindObjectTypeDefinition 1)).
  - apply list_elem_of_In. vm_compute. right. left. reflexivity.
  - reflexivity.
  - exists 0. split; [|reflexivity].
    apply list_elem_of_In. vm_compute. left. reflexivity.
  - exists 1. split; [|reflexivity].
    apply list_elem_of_In. vm_compute. left. reflexivity.
Defined.

(** C6.  No record of the root set has an empty list of field names. *)
Theorem root_records_nonempty
    (env : Collaborators) (d : Document) (tf : TypeField) :
  tf ∈ (GetAllNodes env d).1 → FieldNames tf ≠ [].
Proof.
  simpl. intros (astNode & Hnode & Hrec)%getAllRootNodes_elem_of.
  by apply rootRecord_Some in Hrec as (_ & _ & Hne & ->).
Qed.

Lemma root_records_nonempty_witness :
  FieldNames (mkTypeField "Query" ["a"]) ≠ [].
Proof.
  apply (root_records_nonempty queryResolver scenarioDocument).
  apply list_elem_of_In. vm_compute. left. reflexivity.
Defined.

(** ** One record per type name, one entry per field name *)

Lemma rootRecord_TypeNames env d (astNodes : list Node) :
  TypeName <$> omap (rootRecord env d) astNodes
  = NodeNameString d
      <$> filter (λ astNode, is_Some (rootRecord env d astNode)) astNodes.
Proof.
  induction astNodes as [|astNode rest IH]; [done|].
  rewrite filter_cons.
  change (omap (rootRecord env d) (astNode :: rest))
    with (match rootRecord env d astNode with
          | Some tf => tf :: omap (rootRecord env d) rest
          | None => omap (rootRecord env d) rest
          end).
  destruct (rootRecord env d astNode) as [tf|] eqn:Hrec.
  - rewrite decide_True by done. rewrite !fmap_cons, IH. f_equal.
    by apply rootRecord_Some in Hrec as (_ & _ & _ & ->).
  - rewrite decide_False by (by intros [? ?]). done.
Qed.

(** C2 fails on the root set: a type declared by a definition and by an
    extension, both entities, has two records there. *)
Lemma root_set_repeats_type_name :
  ¬ (NoDup (TypeName <$> (GetAllNodes failingResolver splitDocument).1) ∧
     NoDup (TypeName <$> (GetAllNodes failingResolver splitDocument).2)).
Proof.
  intros [Hroot _]. vm_compute in Hroot.
  apply NoDup_cons in Hroot as [Hnin _]. apply Hnin. left.
Qed.

(** C2, amended.  No two records of the child set have the same type name,
    so the field names found for a type are all in its one record.  The
    root set has one record per emitting top-level node, in document
    order, named after the node: a type name is repeated exactly when
    several emitting nodes carry it. *)
Theorem one_child_record_per_type (env : Collaborators) (d : Document) :
  NoDup (TypeName <$> (GetAllNodes env d).2) ∧
  TypeName <$> (GetAllNodes env d).1
  = NodeNameString d
      <$> filter (λ astNode, is_Some (rootRecord env d astNode)) (RootNodes d).
Proof.
  simpl. split.
  - apply getAllChildNodes_wellFormed.
  - rewrite getAllRootNodes_omap. apply rootRecord_TypeNames.
Qed.

(** C7.  On a document whose top-level nodes each declare every field
    name once, every record of the root set and every record of the child
    set lists each field name at most once.  For the child set the
    registration refuses a name that is listed already, whatever paths lead
    to the pair; for the root set the names are those of the node. *)
Theorem field_names_unique
    (env : Collaborators) (d : Document) (tf : TypeField) :
  (∀ astNode,
     astNode ∈ RootNodes d →
     NoDup (FieldDefinitionNameString d <$> NodeFieldDefinitions d astNode)) →
  tf ∈ (GetAllNodes env d).1 ∨ tf ∈ (GetAllNodes env d).2 →
  NoDup (FieldNames tf).
Proof.
  simpl. intros Hvalid [Hroot|Hchild].
  - apply getAllRootNodes_elem_of in Hroot as (astNode & Hnode & Hrec).
    apply rootRecord_Some in Hrec as (_ & _ & _ & ->). simpl.
    apply (sublist_NoDup _ _ (Hvalid astNode Hnode)).
    unfold localFieldNames, localFieldRefs.
    apply fmap_sublist, sublist_filter.
  - destruct (getAllChildNodes_wellFormed d (getAllRootNodes env d))
      as [_ Hfields].
    rewrite Forall_forall in Hfields. by destruct (Hfields tf Hchild).
Qed.

Lemma field_names_unique_witness :
  NoDup (FieldNames (mkTypeField "Foo" ["id"; "b"])) ∧
  NoDup (FieldNames (mkTypeField "Foo" ["id"; "b"; "secret"])).
Proof.
  assert (∀ astNode,
            astNode ∈ RootNodes scenarioDocument →
            NoDup (FieldDefinitionNameString scenarioDocument
                     <$> NodeFieldDefinitions scenarioDocument astNode))
    as Hvalid.
  { apply Forall_forall. apply (bool_decide_unpack _). vm_compute. exact I. }
  split.
  - apply (field_names_unique queryResolver scenarioDocument _ Hvalid).
    left. apply list_elem_of_In. vm_compute. right. left. reflexivity.
  - apply (field_names_unique queryResolver scenarioDocument _ Hvalid).
    right. apply list_elem_of_In. vm_compute. left. reflexivity.
Defined.

(** ** The child set is not filtered *)

Lemma fullyRegistered_elem_of d childNodes typeName node fieldRef :
  fullyRegistered d childNodes typeName →
  FirstNodeByNameStr (DocumentIndex d) typeName = Some node →
  fieldRef ∈ NodeFieldDefinitions d node →
  ∃ tf, tf ∈ childNodes ∧ TypeName tf = typeName ∧
        FieldDefinitionNameString d fieldRef ∈ FieldNames tf.
Proof.
  intros Hfull Hnode Href. apply registered_elem_of. by eapply Hfull.
Qed.

(** C8.  Every field definition of every type the child walk enters, with
    or without an [external] directive, has its name in the record of that
    type in the child set: the statement puts no condition on the
    directives of [fieldRef]. *)
Theorem child_set_ignores_external
    (env : Collaborators) (d : Document)
    (typeName : string) (node : Node) (fieldRef : Z) :
  walked d (GetAllNodes env d).1 typeName →
  FirstNodeByNameStr (DocumentIndex d) typeName = Some node →
  fieldRef ∈ NodeFieldDefinitions d node →
  ∃ tf, tf ∈ (GetAllNodes env d).2 ∧ TypeName tf = typeName ∧
        FieldDefinitionNameString d fieldRef ∈ FieldNames tf.
Proof.
  simpl. intros Hwalked Hnode Href.
  eapply fullyRegistered_elem_of; [|done..].
  by apply walked_fullyRegistered.
Qed.

Lemma child_set_ignores_external_witness :
  FieldDefinitionHasNamedDirective scenarioDocument 3 "external" = true ∧
  ∃ tf, tf ∈ (GetAllNodes queryResolver scenarioDocument).2 ∧
        TypeName tf = "Foo" ∧ "secret" ∈ FieldNames tf.
Proof.
  split; [reflexivity|].
  apply (child_set_ignores_external queryResolver scenarioDocument "Foo"
           (mkNode NodeKindObjectTypeDefinition 1) 3).
  - apply (walked_root scenarioDocument _ (mkTypeField "Query" ["a"])
             (mkNode NodeKindObjectTypeDefinition 0) "a").
    + apply list_elem_of_In. vm_compute. left. reflexivity.
    + reflexivity.
    + apply list_elem_of_In. left. reflexivity.
  - reflexivity.
  - apply list_elem_of_In. vm_compute. right. right. left. reflexivity.
Defined.

(** ** A root field name the resolved node does not declare *)

Lemma buildFieldNameToRef_lookup_fresh d fieldRefs fieldNameToRef fieldName :
  fieldName ∉ FieldDefinitionNameString d <$> fieldRefs →
  buildFieldNameToRef d fieldRefs fieldNameToRef !! fieldName
  = fieldNameToRef !! fieldName.
Proof.
  revert fieldNameToRef. induction fieldRefs as [|fieldRef rest IH];
    intros fieldNameToRef Hfresh; [done|].
  rewrite fmap_cons in Hfresh. apply not_elem_of_cons in Hfresh as [Hne Hrest].
  cbn [buildFieldNameToRef]. rewrite IH by done.
  by apply lookup_insert_ne.
Qed.

(** C10.  A field name of a root record that the record's resolved node
    does not declare is not skipped: reading [fieldNameToRef] at it yields
    the reference 0, the iteration for it is the walk of the return type of
    field definition 0, and every field definition of that type ends up in
    the child set. *)
Theorem undeclared_root_field_walks_ref_zero
    (d : Document) (rootNodes : list TypeField) (rootNode : TypeField)
    (rootNodeASTNode : Node) (fieldName : string) :
  rootNode ∈ rootNodes →
  FirstNodeByNameStr (DocumentIndex d) (TypeName rootNode)
    = Some rootNodeASTNode →
  fieldName ∈ FieldNames rootNode →
  fieldName
    ∉ FieldDefinitionNameString d <$> NodeFieldDefinitions d rootNodeASTNode →
  let fieldNameToRef :=
    buildFieldNameToRef d (NodeFieldDefinitions d rootNodeASTNode) ∅ in
  mapIndex fieldNameToRef fieldName = 0 ∧
  (∀ fuel rest childNodes,
     walkRootFieldNames fuel d fieldNameToRef (fieldName :: rest) childNodes
     = match findChildNodesForType fuel d (fieldTypeName d 0) childNodes with
       | Some childNodes' =>
           walkRootFieldNames fuel d fieldNameToRef rest childNodes'
       | None => None
       end) ∧
  (∀ node fieldRef,
     FirstNodeByNameStr (DocumentIndex d) (fieldTypeName d 0) = Some node →
     fieldRef ∈ NodeFieldDefinitions d node →
     ∃ tf, tf ∈ getAllChildNodes d rootNodes ∧
           TypeName tf = fieldTypeName d 0 ∧
           FieldDefinitionNameString d fieldRef ∈ FieldNames tf).
Proof.
  intros Hroot Hnode Hfield Hfresh fieldNameToRef.
  assert (mapIndex fieldNameToRef fieldName = 0) as Hzero.
  { unfold mapIndex, fieldNameToRef.
    by rewrite buildFieldNameToRef_lookup_fresh, lookup_empty. }
  split_and!; [done| |].
  - intros fuel rest childNodes. cbn [walkRootFieldNames]. by rewrite Hzero.
  - intros node fieldRef Hnode0 Href.
    pose proof (getAllChildNodes_entry d rootNodes rootNode rootNodeASTNode
                  fieldName Hroot Hnode Hfield) as Hfull.
    unfold rootFieldTypeName in Hfull. fold fieldNameToRef in Hfull.
    rewrite Hzero in Hfull. by eapply fullyRegistered_elem_of.
Qed.

Lemma undeclared_root_field_walks_ref_zero_witness :
  fieldTypeName splitDocument 0 = "User" ∧
  ∃ tf, tf ∈ getAllChildNodes splitDocument [mkTypeField "Foo" ["name"]] ∧
        TypeName tf = "User" ∧ "id" ∈ FieldNames tf.
Proof.
  split; [reflexivity|].
  destruct (undeclared_root_field_walks_ref_zero splitDocument
              [mkTypeField "Foo" ["name"]] (mkTypeField "Foo" ["name"])
              (mkNode NodeKindObjectTypeDefinition 0) "name")
    as (_ & _ & Hall).
  - apply list_elem_of_In. left. reflexivity.
  - reflexivity.
  - apply list_elem_of_In. left. reflexivity.
  - intros H. apply list_elem_of_In in H. vm_compute in H.
    destruct H as [H|[]]. discriminate H.
  - apply (Hall (mkNode NodeKindObjectTypeDefinition 1) 2).
    + reflexivity.
    + apply list_elem_of_In. left. reflexivity.
Defined.

(** ** Two mutually recursive types *)

Lemma TypeName_inj (childNodes : list TypeField) tf tf' :
  NoDup (TypeName <$> childNodes) →
  tf ∈ childNodes → tf' ∈ childNodes → TypeName tf = TypeName tf' → tf = tf'.
Proof.
  induction childNodes as [|tf0 rest IH]; [by intros _ ?%elem_of_nil|].
  rewrite fmap_cons.
  intros [Hnin Hnd]%NoDup_cons [->|Hin]%elem_of_cons [->|Hin']%elem_of_cons Heq.
  - done.
  - exfalso. apply Hnin. rewrite Heq. by apply list_elem_of_fmap_2.
  - exfalso. apply Hnin. rewrite <- Heq. by apply list_elem_of_fmap_2.
  - by apply IH.
Qed.




(** ** The extraction as a call: resolver invocations and the document *)

Section CallProperties.

Variable env : Collaborators.

Lemma addRootNodesCall_run astNode rootNodes w :
  addRootNodesCall env astNode rootNodes w
  = (addRootNodes env (heldDocument w) astNode rootNodes,
     mkWorld (heldDocument w) (S (resolverCalls w))).
Proof.
  unfold addRootNodesCall, addRootNodes, baseSchemaCall, readDocument,
    resolverInvoked, mbind, Call_bind, mret, Call_ret.
  simpl.
  destruct (negb (isEntity (heldDocument w) astNode) && _); [done|].
  by destruct (length (collectFieldNames (heldDocument w)
                         (NodeFieldDefinitions (heldDocument w) astNode) [])
               =? 0)%nat.
Qed.

Lemma collectRootNodesCall_run astNodes rootNodes d calls :
  collectRootNodesCall env astNodes rootNodes (mkWorld d calls)
  = (collectRootNodes env d astNodes rootNodes,
     mkWorld d
       (calls
        + length (filter (λ astNode, isObjectTypeNode astNode = true) astNodes))).
Proof.
  revert rootNodes calls. induction astNodes as [|astNode rest IH];
    intros rootNodes calls; cbn [collectRootNodesCall collectRootNodes].
  - unfold mret, Call_ret. by rewrite Nat.add_0_r.
  - rewrite filter_cons. destruct (isObjectTypeNode astNode) eqn:Hkind.
    + rewrite decide_True by done.
      unfold mbind, Call_bind. rewrite addRootNodesCall_run. simpl.
      rewrite IH. do 2 f_equal. lia.
    + rewrite decide_False by done. apply IH.
Qed.

Lemma getAllRootNodesCall_run w :
  getAllRootNodesCall env w
  = (getAllRootNodes env (heldDocument w),
     mkWorld (heldDocument w)
       (resolverCalls w + length (topLevelObjectTypes (heldDocument w)))).
Proof.
  destruct w as [d calls]. unfold getAllRootNodesCall, readDocument.
  unfold mbind, Call_bind. simpl. apply collectRootNodesCall_run.
Qed.

Lemma walkFieldDefinitionsCall_run recurse recurseCall typeName fieldsRefs w :
  (∀ t childNodes, recurseCall t childNodes w = (recurse t childNodes, w)) →
  ∀ childNodes,
    walkFieldDefinitionsCall recurseCall typeName fieldsRefs childNodes w
    = (walkFieldDefinitions recurse (heldDocument w) typeName fieldsRefs
         childNodes, w).
Proof.
  intros Hrec. induction fieldsRefs as [|fieldRef rest IH]; intros childNodes;
    cbn [walkFieldDefinitionsCall walkFieldDefinitions]; [done|].
  unfold mbind, Call_bind, readDocument. simpl.
  destruct (addChildTypeFieldName typeName
              (FieldDefinitionNameString (heldDocument w) fieldRef) childNodes)
    as [added childNodes1].
  destruct added; simpl; [|apply IH].
  rewrite Hrec.
  destruct (recurse (fieldTypeName (heldDocument w) fieldRef) childNodes1);
    [apply IH | done].
Qed.

Lemma findChildNodesForTypeCall_run fuel typeName childNodes w :
  findChildNodesForTypeCall fuel typeName childNodes w
  = (findChildNodesForType fuel (heldDocument w) typeName childNodes, w).
Proof.
  revert typeName childNodes. induction fuel as [|fuel IH];
    intros typeName childNodes;
    cbn [findChildNodesForTypeCall findChildNodesForType]; [done|].
  unfold mbind, Call_bind, readDocument. simpl.
  destruct (FirstNodeByNameStr (DocumentIndex (heldDocument w)) typeName);
    [|done].
  by apply walkFieldDefinitionsCall_run.
Qed.

Lemma walkRootFieldNamesCall_run fuel fieldNameToRef fieldNames childNodes w :
  walkRootFieldNamesCall fuel fieldNameToRef fieldNames childNodes w
  = (walkRootFieldNames fuel (heldDocument w) fieldNameToRef fieldNames
       childNodes, w).
Proof.
  revert childNodes. induction fieldNames as [|fieldName rest IH];
    intros childNodes; cbn [walkRootFieldNamesCall walkRootFieldNames];
    [done|].
  unfold mbind, Call_bind, readDocument. simpl.
  rewrite findChildNodesForTypeCall_run.
  destruct (findChildNodesForType fuel (heldDocument w) _ childNodes);
    [apply IH | done].
Qed.

Lemma walkRootNodesCall_run fuel rootNodes childNodes w :
  walkRootNodesCall fuel rootNodes childNodes w
  = (walkRootNodes fuel (heldDocument w) rootNodes childNodes, w).
Proof.
  revert childNodes. induction rootNodes as [|rootNode rest IH];
    intros childNodes; cbn [walkRootNodesCall walkRootNodes]; [done|].
  unfold mbind, Call_bind, readDocument. simpl.
  destruct (FirstNodeByNameStr (DocumentIndex (heldDocument w))
              (TypeName rootNode)); [|apply IH].
  rewrite walkRootFieldNamesCall_run.
  destruct (walkRootFieldNames fuel (heldDocument w) _ (FieldNames rootNode)
              childNodes); [apply IH | done].
Qed.

Lemma getAllChildNodesCall_run rootNodes w :
  getAllChildNodesCall rootNodes w
  = (getAllChildNodes (heldDocument w) rootNodes, w).
Proof.
  unfold getAllChildNodesCall, mbind, Call_bind, readDocument. simpl.
  by rewrite walkRootNodesCall_run.
Qed.

Lemma GetAllNodesCall_run w :
  GetAllNodesCall env w
  = (GetAllNodes env (heldDocument w),
     mkWorld (heldDocument w)
       (resolverCalls w + length (topLevelObjectTypes (heldDocument w)))).
Proof.
  unfold GetAllNodesCall, mbind, Call_bind.
  by rewrite getAllRootNodesCall_run, getAllChildNodesCall_run.
Qed.

End CallProperties.

(** C3 fails: a document with three top-level object type nodes makes one
    call of [GetAllNodes] invoke the resolver three times. *)
Lemma resolver_invoked_per_node :
  resolverCalls (GetAllNodesCall failingResolver (mkWorld splitDocument 0)).2
  ≠ 1%nat.
Proof. vm_compute. discriminate. Qed.

(** C3, amended.  One call of [GetAllNodes] invokes the Base Schema
    Resolver once for every top-level object type definition or extension
    of the document, none when there is none, and all of it while the root
    set is collected: the child walk invokes it no more. *)
Theorem resolver_invoked_once_per_object_type
    (env : Collaborators) (w : World) :
  resolverCalls (GetAllNodesCall env w).2
  = (resolverCalls w + length (topLevelObjectTypes (heldDocument w)))%nat ∧
  resolverCalls (getAllRootNodesCall env w).2
  = resolverCalls (GetAllNodesCall env w).2.
Proof. by rewrite GetAllNodesCall_run, getAllRootNodesCall_run. Qed.

(** ** Further properties: termination of the walk in general *)

(** X1.  The walk of a type terminates from every slice, on every
    document: at every recursion depth above the number of pairs of the
    document not registered yet it returns one and the same slice, and
    [walkFuel] is such a depth.  So does the whole child collection. *)
Theorem child_walk_terminates
    (d : Document) (typeName : string) (childNodes rootNodes : list TypeField) :
  (unregistered d childNodes < walkFuel d)%nat ∧
  (∃ childNodes',
     ∀ fuel, (unregistered d childNodes < fuel)%nat →
       findChildNodesForType fuel d typeName childNodes = Some childNodes') ∧
  (∀ fuel, (walkFuel d ≤ fuel)%nat →
     walkRootNodes fuel d rootNodes [] = Some (getAllChildNodes d rootNodes)).
Proof.
  split_and!.
  - apply unregistered_bound.
  - destruct (findChildNodesForType_total d (S (unregistered d childNodes))
                typeName childNodes (Nat.lt_succ_diag_r _))
      as [childNodes' Hfind].
    exists childNodes'. intros fuel Hfuel.
    eapply findChildNodesForType_fuel_mono; [|done]. lia.
  - intros fuel Hfuel. by apply getAllChildNodes_fuel.
Qed.

(** ** Further properties: the registration step *)

(** X2.  [addChildTypeFieldName] answers [true] exactly when the first
    record for the type does not list the field yet; afterwards the pair is
    listed and no other pair has changed; a [false] answer leaves the slice
    as it was; and registering the same pair once more is refused and
    changes nothing. *)
Theorem addChildTypeFieldName_contract
    (typeName fieldName : string) (childNodes : list TypeField) :
  let result := addChildTypeFieldName typeName fieldName childNodes in
  result.1 = negb (registered childNodes typeName fieldName) ∧
  registered result.2 typeName fieldName = true ∧
  (∀ t f, (t, f) ≠ (typeName, fieldName) →
          registered result.2 t f = registered childNodes t f) ∧
  (result.1 = false → result.2 = childNodes) ∧
  addChildTypeFieldName typeName fieldName result.2 = (false, result.2).
Proof.
  simpl. split_and!.
  - apply addChildTypeFieldName_added.
  - apply addChildTypeFieldName_self.
  - intros t f Hne. rewrite addChildTypeFieldName_registered.
    destruct (String.eqb_spec typeName t) as [->|]; simpl;
      [|by rewrite orb_false_r].
    destruct (String.eqb_spec fieldName f) as [->|]; simpl;
      [done | by rewrite orb_false_r].
  - apply addChildTypeFieldName_not_added.
  - pose proof (addChildTypeFieldName_added typeName fieldName
                  (addChildTypeFieldName typeName fieldName childNodes).2)
      as Hadded.
    rewrite addChildTypeFieldName_self in Hadded. simpl in Hadded.
    pose proof (addChildTypeFieldName_not_added _ _ _ Hadded) as Hsame.
    destruct (addChildTypeFieldName typeName fieldName
                (addChildTypeFieldName typeName fieldName childNodes).2).
    simpl in *. by subst.
Qed.

Lemma extendsSlice_refl childNodes : extendsSlice childNodes childNodes.
Proof.
  exists childNodes, []. split; [by rewrite app_nil_r|].
  apply Forall_Forall2_diag, Forall_forall. by intros tf _.
Qed.

Lemma extendsSlice_trans childNodes1 childNodes2 childNodes3 :
  extendsSlice childNodes1 childNodes2 →
  extendsSlice childNodes2 childNodes3 →
  extendsSlice childNodes1 childNodes3.
Proof.
  intros (front2 & new2 & -> & H12) (front3 & new3 & -> & H23).
  apply Forall2_app_inv_l in H23 as (front & rest & Hfront & _ & ->).
  exists front, (rest ++ new3). split; [by rewrite app_assoc|].
  eapply Forall2_trans; [|done..].
  intros tf1 tf2 tf3 [Hn12 Hp12] [Hn23 Hp23]. split; [congruence|].
  by etrans.
Qed.

Lemma addChildTypeFieldName_extendsSlice typeName fieldName childNodes :
  extendsSlice childNodes
    (addChildTypeFieldName typeName fieldName childNodes).2.
Proof.
  induction childNodes as [|tf rest IH]; simpl.
  - exists [], [mkTypeField typeName [fieldName]]. split; [done|constructor].
  - destruct (String.eqb (TypeName tf) typeName); simpl.
    + destruct (containsField fieldName (FieldNames tf)).
      * apply extendsSlice_refl.
      * exists (mkTypeField (TypeName tf) (FieldNames tf ++ [fieldName])
                :: rest), [].
        split; [by rewrite app_nil_r|]. constructor.
        -- split; [done|]. by apply prefix_app_r.
        -- apply Forall_Forall2_diag, Forall_forall. by intros tf' _.
    + destruct (addChildTypeFieldName typeName fieldName rest)
        as [added rest'].
      simpl in *. destruct IH as (front & new & -> & Hfront).
      exists (tf :: front), new. split; [done|]. by constructor.
Qed.

(** X3.  The walk of a type only extends the slice: every record stays at
    its place with its type name, its field names stay in front of the
    ones the walk adds to it, and new records come behind the old ones. *)
Theorem findChildNodesForType_extends
    (d : Document) (fuel : nat) (typeName : string)
    (childNodes childNodes' : list TypeField) :
  findChildNodesForType fuel d typeName childNodes = Some childNodes' →
  extendsSlice childNodes childNodes'.
Proof.
  intros Hfind.
  eapply (findChildNodesForType_invariant d (extendsSlice childNodes));
    [|apply extendsSlice_refl|done].
  intros t node fieldRef cs _ _ Hcs.
  eapply extendsSlice_trans; [done|].
  apply addChildTypeFieldName_extendsSlice.
Qed.

Lemma findChildNodesForType_extends_witness :
  extendsSlice [mkTypeField "B" ["a"]]
    [mkTypeField "B" ["a"]; mkTypeField "A" ["b"]].
Proof.
  apply (findChildNodesForType_extends cycleDocument 3 "A"
           [mkTypeField "B" ["a"]]).
  reflexivity.
Defined.

(** ** Further properties: the root set and the resolver *)

Lemma isObjectTypeNode_true astNode :
  isObjectTypeNode astNode = true ↔
  Kind astNode = NodeKindObjectTypeDefinition ∨
  Kind astNode = NodeKindObjectTypeExtension.
Proof.
  unfold isObjectTypeNode. destruct (Kind astNode); simpl;
    split; (done || auto || by intros [?|?]).
Qed.

Lemma isRootOperationType_true document typeName :
  isRootOperationType document typeName = true ↔
  ∃ document',
    document = Some document' ∧
    IsRootOperationTypeNameString (DocumentIndex document') typeName = true.
Proof.
  destruct document as [document'|]; simpl.
  - split; [by exists document' | by intros (? & [= <-] & ?)].
  - split; [done | by intros (? & ? & ?)].
Qed.

Lemma rootRecord_Some_2 env d astNode :
  isObjectTypeNode astNode = true →
  isEntity d astNode = true ∨
  isRootOperationType (baseSchema env d) (NodeNameString d astNode) = true →
  localFieldNames d astNode ≠ [] →
  rootRecord env d astNode
  = Some (mkTypeField (NodeNameString d astNode) (localFieldNames d astNode)).
Proof.
  intros Hkind Hq Hne. unfold rootRecord. rewrite Hkind. simpl.
  rewrite (bool_decide_eq_false_2 _ Hne). simpl.
  destruct Hq as [->| ->]; [done|]. by rewrite orb_true_r.
Qed.

(** X4.  The root set holds a record exactly for the top-level nodes that
    are an object type definition or extension, carry a [key] directive or
    are named like a root operation type of the resolved base schema, and
    have a field definition without [external]; the record has the name of
    the node and the names of those field definitions. *)
Theorem root_set_membership
    (env : Collaborators) (d : Document) (tf : TypeField) :
  tf ∈ (GetAllNodes env d).1 ↔
  ∃ astNode,
    astNode ∈ RootNodes d ∧
    (Kind astNode = NodeKindObjectTypeDefinition ∨
     Kind astNode = NodeKindObjectTypeExtension) ∧
    ((∃ directiveRef,
        directiveRef ∈ NodeDirectives d astNode ∧
        DirectiveNameString d directiveRef = "key") ∨
     (∃ document,
        baseSchema env d = Some document ∧
        IsRootOperationTypeNameString (DocumentIndex document)
          (NodeNameString d astNode) = true)) ∧
    (∃ fieldRef,
       fieldRef ∈ NodeFieldDefinitions d astNode ∧
       FieldDefinitionHasNamedDirective d fieldRef "external" = false) ∧
    tf = mkTypeField (NodeNameString d astNode)
           (FieldDefinitionNameString d <$> localFieldRefs d astNode).
Proof.
  simpl. rewrite getAllRootNodes_elem_of. split.
  - intros (astNode & Hnode & Hrec).
    apply rootRecord_Some in Hrec as (Hkind & Hq & Hne & ->).
    exists astNode. split_and!; [done | by apply isObjectTypeNode_true | | |done].
    + destruct Hq as [He|Hr].
      * left. by apply isEntity_true.
      * right. by apply isRootOperationType_true.
    + unfold localFieldNames in Hne.
      destruct (localFieldRefs d astNode) as [|r rs] eqn:Hrs; [done|].
      exists r. apply (localFieldRefs_elem_of d astNode r).
      rewrite Hrs. left.
  - intros (astNode & Hnode & Hkind & Hq & (r & Hr) & ->).
    exists astNode. split; [done|].
    apply rootRecord_Some_2.
    + by apply isObjectTypeNode_true.
    + destruct Hq as [He|Hr'].
      * left. by apply isEntity_true.
      * right. by apply isRootOperationType_true.
    + apply (localFieldRefs_elem_of d astNode r) in Hr.
      unfold localFieldNames. intros Hnil%fmap_nil_inv.
      rewrite Hnil in Hr. by apply elem_of_nil in Hr.
Qed.

Lemma omap_sublist {A B : Type} (f g : A → option B) (l : list A) :
  (∀ x y, x ∈ l → f x = Some y → g x = Some y) →
  omap f l `sublist_of` omap g l.
Proof.
  induction l as [|x l IH]; intros Himp; [constructor|].
  assert (omap f l `sublist_of` omap g l) as Hrest.
  { apply IH. intros x' y Hx'. apply Himp. by right. }
  change (omap f (x :: l))
    with (match f x with Some y => y :: omap f l | None => omap f l end).
  change (omap g (x :: l))
    with (match g x with Some y => y :: omap g l | None => omap g l end).
  destruct (f x) as [y|] eqn:Hf.
  - rewrite (Himp x y (list_elem_of_here _ _) Hf). by apply sublist_skip.
  - destruct (g x); [by apply sublist_cons | done].
Qed.

Lemma omap_ext_elem_of {A B : Type} (f g : A → option B) (l : list A) :
  (∀ x, x ∈ l → f x = g x) → omap f l = omap g l.
Proof.
  induction l as [|x l IH]; intros Heq; [done|].
  change (omap f (x :: l))
    with (match f x with Some y => y :: omap f l | None => omap f l end).
  change (omap g (x :: l))
    with (match g x with Some y => y :: omap g l | None => omap g l end).
  rewrite (Heq x) by left. rewrite IH; [done|].
  intros x' Hx'. apply Heq. by right.
Qed.

(** X5.  A failing base-schema resolution only removes records from the
    root set: what is collected when the resolution fails is a
    subsequence, in the same order, of what is collected with any other
    outcome of the resolution. *)
Theorem resolution_failure_only_removes_roots
    (env env' : Collaborators) (d : Document) :
  baseSchema env d = None →
  (GetAllNodes env d).1 `sublist_of` (GetAllNodes env' d).1.
Proof.
  intros Hfail. simpl. rewrite !getAllRootNodes_omap.
  apply omap_sublist. intros astNode tf _ Hrec.
  apply rootRecord_Some in Hrec as (Hkind & [He|Hr] & Hne & ->).
  - apply rootRecord_Some_2; auto.
  - rewrite Hfail in Hr. discriminate.
Qed.

Lemma resolution_failure_only_removes_roots_witness :
  [mkTypeField "Foo" ["id"; "b"]]
  `sublist_of` [mkTypeField "Query" ["a"]; mkTypeField "Foo" ["id"; "b"]].
Proof.
  exact (resolution_failure_only_removes_roots failingResolver queryResolver
           scenarioDocument eq_refl).
Defined.

(** X6.  The resolver matters only through its verdict on the names of
    the top-level object types that carry no [key]: two resolvers that
    agree there give the same two lists. *)
Theorem resolver_matters_for_non_entities_only
    (env env' : Collaborators) (d : Document) :
  (∀ astNode,
     astNode ∈ RootNodes d →
     isObjectTypeNode astNode = true →
     isEntity d astNode = false →
     isRootOperationType (baseSchema env d) (NodeNameString d astNode)
     = isRootOperationType (baseSchema env' d) (NodeNameString d astNode)) →
  GetAllNodes env d = GetAllNodes env' d.
Proof.
  intros Hagree.
  assert (getAllRootNodes env d = getAllRootNodes env' d) as Hroots.
  { rewrite !getAllRootNodes_omap. apply omap_ext_elem_of.
    intros astNode Hnode. unfold rootRecord.
    destruct (isObjectTypeNode astNode) eqn:Hkind; [|done].
    destruct (isEntity d astNode) eqn:He; [done|].
    by rewrite (Hagree astNode Hnode Hkind He). }
  unfold GetAllNodes. by rewrite Hroots.
Qed.

Lemma resolver_matters_for_non_entities_only_witness :
  GetAllNodes failingResolver splitDocument
  = GetAllNodes queryResolver splitDocument.
Proof.
  apply resolver_matters_for_non_entities_only.
  intros astNode Hnode Hkind He.
  apply list_elem_of_In in Hnode. simpl in Hnode.
  destruct Hnode as [<-|[<-|[<-|[]]]]; try discriminate He.
  reflexivity.
Defined.

(** ** Further properties: how [getAllChildNodes] enters the walk *)




Lemma walkRootNodes_app fuel d rootNodes1 rootNodes2 childNodes :
  walkRootNodes fuel d (rootNodes1 ++ rootNodes2) childNodes
  = match walkRootNodes fuel d rootNodes1 childNodes with
    | Some childNodes' => walkRootNodes fuel d rootNodes2 childNodes'
    | None => None
    end.
Proof.
  revert childNodes. induction rootNodes1 as [|rootNode rest IH];
    intros childNodes; simpl; [done|].
  destruct (FirstNodeByNameStr (DocumentIndex d) (TypeName rootNode));
    [|apply IH].
  destruct (walkRootFieldNames fuel d _ (FieldNames rootNode) childNodes);
    [apply IH | done].
Qed.

(** X8.  A root record whose type name the index does not hold, or that
    has no field names, contributes nothing: the child set is the one
    collected without it. *)
Theorem idle_root_record_skipped
    (d : Document) (before : list TypeField) (rootNode : TypeField)
    (after : list TypeField) :
  FirstNodeByNameStr (DocumentIndex d) (TypeName rootNode) = None ∨
  FieldNames rootNode = [] →
  getAllChildNodes d (before ++ rootNode :: after)
  = getAllChildNodes d (before ++ after).
Proof.
  intros Hidle. unfold getAllChildNodes. rewrite !walkRootNodes_app.
  destruct (walkRootNodes (walkFuel d) d before []) as [childNodes|]; [|done].
  cbn [walkRootNodes].
  destruct Hidle as [-> | Hnil]; [done|].
  destruct (FirstNodeByNameStr (DocumentIndex d) (TypeName rootNode)); [|done].
  by rewrite Hnil.
Qed.

Lemma idle_root_record_skipped_witness :
  getAllChildNodes cycleDocument
    [mkTypeField "A" ["b"]; mkTypeField "Query" ["b"]]
  = getAllChildNodes cycleDocument [mkTypeField "A" ["b"]].
Proof.
  apply (idle_root_record_skipped cycleDocument [mkTypeField "A" ["b"]]
           (mkTypeField "Query" ["b"]) []).
  left. reflexivity.
Defined.

(** ** Further properties: walking again *)

Section WalkAgain.

Variable d : Document.

Lemma walkFieldDefinitions_covers recurse typeName fieldsRefs :
  (∀ t f t' childNodes childNodes',
     registered childNodes t f = true →
     recurse t' childNodes = Some childNodes' →
     registered childNodes' t f = true) →
  ∀ childNodes childNodes',
    walkFieldDefinitions recurse d typeName fieldsRefs childNodes
      = Some childNodes' →
    ∀ fieldRef, fieldRef ∈ fieldsRefs →
      registered childNodes' typeName (FieldDefinitionNameString d fieldRef)
      = true.
Proof.
  intros Hmono. induction fieldsRefs as [|fieldRef0 rest IH];
    intros childNodes childNodes' Hwalk fieldRef Hin;
    [by apply elem_of_nil in Hin|].
  simpl in Hwalk.
  pose proof (addChildTypeFieldName_self typeName
                (FieldDefinitionNameString d fieldRef0) childNodes) as Hself.
  destruct (addChildTypeFieldName typeName
              (FieldDefinitionNameString d fieldRef0) childNodes)
    as [added childNodes1].
  simpl in Hself.
  assert (∃ childNodes2,
            registered childNodes2 typeName
              (FieldDefinitionNameString d fieldRef0) = true ∧
            walkFieldDefinitions recurse d typeName rest childNodes2
              = Some childNodes') as (childNodes2 & Hreg2 & Hrest).
  { destruct added; simpl in Hwalk.
    - destruct (recurse (fieldTypeName d fieldRef0) childNodes1)
        as [childNodes2|] eqn:Hrec; [|discriminate].
      exists childNodes2. split; [|done]. by eapply Hmono.
    - by exists childNodes1. }
  apply elem_of_cons in Hin as [->|Hin]; [|by eapply IH].
  apply (walkFieldDefinitions_invariant d
           (λ c, registered c typeName
                   (FieldDefinitionNameString d fieldRef0) = true)
           recurse typeName rest) with childNodes2; [| |done..].
  - intros t c c' Hc Hr. by eapply Hmono.
  - intros r c _ Hc. by apply addChildTypeFieldName_mono.
Qed.

Lemma findChildNodesForType_covers fuel typeName childNodes childNodes' :
  findChildNodesForType fuel d typeName childNodes = Some childNodes' →
  fullyRegistered d childNodes' typeName.
Proof.
  destruct fuel as [|fuel]; [discriminate|]. simpl.
  intros Hfind node fieldRef Hnode Href. rewrite Hnode in Hfind.
  eapply walkFieldDefinitions_covers; [|done..].
  intros t f t' c c' Hc Hr. by eapply findChildNodesForType_mono.
Qed.

Lemma walkFieldDefinitions_idle recurse typeName fieldsRefs childNodes :
  (∀ fieldRef, fieldRef ∈ fieldsRefs →
     registered childNodes typeName (FieldDefinitionNameString d fieldRef)
     = true) →
  walkFieldDefinitions recurse d typeName fieldsRefs childNodes
  = Some childNodes.
Proof.
  induction fieldsRefs as [|fieldRef rest IH]; intros Hall; [done|].
  simpl.
  pose proof (addChildTypeFieldName_added typeName
                (FieldDefinitionNameString d fieldRef) childNodes) as Hadded.
  pose proof (addChildTypeFieldName_not_added typeName
                (FieldDefinitionNameString d fieldRef) childNodes) as Hsame.
  rewrite (Hall fieldRef) in Hadded by left.
  destruct (addChildTypeFieldName typeName
              (FieldDefinitionNameString d fieldRef) childNodes)
    as [added childNodes1].
  simpl in *. subst added. rewrite Hsame by done. simpl.
  apply IH. intros r Hr. apply Hall. by right.
Qed.

Lemma findChildNodesForType_idle fuel typeName childNodes :
  fullyRegistered d childNodes typeName →
  findChildNodesForType (S fuel) d typeName childNodes = Some childNodes.
Proof.
  intros Hfull. simpl.
  destruct (FirstNodeByNameStr (DocumentIndex d) typeName) as [node|] eqn:Hnode;
    [|done].
  apply walkFieldDefinitions_idle. intros r Hr. by eapply Hfull.
Qed.

Lemma walkRootFieldNames_idle fuel fieldNameToRef fieldNames childNodes :
  (∀ fieldName, fieldName ∈ fieldNames →
     fullyRegistered d childNodes
       (fieldTypeName d (mapIndex fieldNameToRef fieldName))) →
  walkRootFieldNames (S fuel) d fieldNameToRef fieldNames childNodes
  = Some childNodes.
Proof.
  induction fieldNames as [|fieldName rest IH]; intros Hall; [done|].
  cbn [walkRootFieldNames].
  rewrite findChildNodesForType_idle by (apply Hall; left).
  apply IH. intros f Hf. apply Hall. by right.
Qed.

Lemma walkRootNodes_idle fuel rootNodes childNodes :
  (∀ rootNode rootNodeASTNode fieldName,
     rootNode ∈ rootNodes →
     FirstNodeByNameStr (DocumentIndex d) (TypeName rootNode)
       = Some rootNodeASTNode →
     fieldName ∈ FieldNames rootNode →
     fullyRegistered d childNodes
       (rootFieldTypeName d rootNodeASTNode fieldName)) →
  walkRootNodes (S fuel) d rootNodes childNodes = Some childNodes.
Proof.
  induction rootNodes as [|rootNode rest IH]; intros Hall; [done|].
  cbn [walkRootNodes].
  assert (walkRootNodes (S fuel) d rest childNodes = Some childNodes) as Hrest.
  { apply IH. intros rf rn f Hrf. apply Hall. by right. }
  destruct (FirstNodeByNameStr (DocumentIndex d) (TypeName rootNode))
    as [rootNodeASTNode|] eqn:Hnode; [|done].
  rewrite walkRootFieldNames_idle; [done|].
  intros f Hf. by apply (Hall rootNode rootNodeASTNode f (list_elem_of_here _ _)).
Qed.

End WalkAgain.

(** X9.  Walking a type again changes nothing: once a walk of a type has
    returned, every field definition of the type is registered, and a
    second walk of it from the resulting slice returns that slice as it
    is. *)
Theorem findChildNodesForType_again
    (d : Document) (fuel fuel' : nat) (typeName : string)
    (childNodes childNodes' : list TypeField) :
  findChildNodesForType fuel d typeName childNodes = Some childNodes' →
  (∀ node fieldRef,
     FirstNodeByNameStr (DocumentIndex d) typeName = Some node →
     fieldRef ∈ NodeFieldDefinitions d node →
     registered childNodes' typeName (FieldDefinitionNameString d fieldRef)
     = true) ∧
  findChildNodesForType (S fuel') d typeName childNodes' = Some childNodes'.
Proof.
  intros Hfind.
  pose proof (findChildNodesForType_covers d _ _ _ _ Hfind) as Hfull.
  split; [exact Hfull|]. by apply findChildNodesForType_idle.
Qed.

Lemma findChildNodesForType_again_witness :
  findChildNodesForType 1 entityDocument "Zed"
    [mkTypeField "Zed" ["id"; "peer"]]
  = Some [mkTypeField "Zed" ["id"; "peer"]].
Proof.
  apply (findChildNodesForType_again entityDocument 3 0 "Zed" []).
  reflexivity.
Defined.

(** X10.  Root records given once more add nothing: the child set
    collected from a list of root records followed by records that are
    already in the list is the child set collected from the list. *)
Theorem repeated_root_records_add_nothing
    (d : Document) (rootNodes rootNodes' : list TypeField) :
  (∀ rootNode, rootNode ∈ rootNodes' → rootNode ∈ rootNodes) →
  getAllChildNodes d (rootNodes ++ rootNodes') = getAllChildNodes d rootNodes.
Proof.
  intros Hsub. unfold getAllChildNodes at 1.
  rewrite walkRootNodes_app, (getAllChildNodes_fuel d _ rootNodes (le_n _)).
  unfold walkFuel. rewrite walkRootNodes_idle; [done|].
  intros rf rn f Hrf Hrn Hf.
  apply (getAllChildNodes_entry d rootNodes rf rn f); auto.
Qed.

Lemma repeated_root_records_add_nothing_witness :
  getAllChildNodes scenarioDocument
    ([mkTypeField "Query" ["a"]; mkTypeField "Foo" ["id"; "b"]]
     ++ [mkTypeField "Foo" ["id"; "b"]; mkTypeField "Query" ["a"]])
  = getAllChildNodes scenarioDocument
      [mkTypeField "Query" ["a"]; mkTypeField "Foo" ["id"; "b"]].
Proof.
  apply repeated_root_records_add_nothing.
  intros rootNode H. apply list_elem_of_In in H. apply list_elem_of_In.
  simpl in *. tauto.
Defined.

(** ** Further properties: the content of the child records *)

Lemma registered_fieldsOf childNodes typeName fieldName :
  registered childNodes typeName fieldName
  = containsField fieldName (fieldsOf childNodes typeName).
Proof.
  induction childNodes as [|tf rest IH]; simpl; [done|].
  by destruct (String.eqb (TypeName tf) typeName).
Qed.

Lemma fieldsOf_add typeName fieldName childNodes t :
  fieldsOf (addChildTypeFieldName typeName fieldName childNodes).2 t
  = if String.eqb typeName t
       && negb (containsField fieldName (fieldsOf childNodes typeName))
    then fieldsOf childNodes typeName ++ [fieldName]
    else fieldsOf childNodes t.
Proof.
  induction childNodes as [|tf rest IH]; simpl.
  - by destruct (String.eqb_spec typeName t).
  - destruct (String.eqb_spec (TypeName tf) typeName) as [Heq|Hne]; simpl.
    + destruct (containsField fieldName (FieldNames tf)) eqn:Hc; simpl.
      * by rewrite andb_false_r.
      * rewrite andb_true_r, Heq. by destruct (String.eqb_spec typeName t).
    + destruct (addChildTypeFieldName typeName fieldName rest)
        as [added rest'].
      simpl in *.
      destruct (String.eqb_spec (TypeName tf) t) as [Heq'|Hne']; simpl;
        [|done].
      by destruct (String.eqb_spec typeName t) as [<-|].
Qed.

Lemma fieldsOf_elem_of childNodes tf :
  NoDup (TypeName <$> childNodes) → tf ∈ childNodes →
  fieldsOf childNodes (TypeName tf) = FieldNames tf.
Proof.
  induction childNodes as [|tf' rest IH]; [by intros _ ?%elem_of_nil|].
  rewrite fmap_cons. intros [Hnin Hnd]%NoDup_cons [->|Hin]%elem_of_cons; simpl.
  - by rewrite String.eqb_refl.
  - destruct (String.eqb_spec (TypeName tf') (TypeName tf)) as [Heq|Hne];
      simpl; [|by apply IH].
    exfalso. apply Hnin. rewrite Heq. by apply list_elem_of_fmap_2.
Qed.

Lemma appendDistinct_app fieldNames1 fieldNames2 seen :
  appendDistinct (fieldNames1 ++ fieldNames2) seen
  = appendDistinct fieldNames2 (appendDistinct fieldNames1 seen).
Proof.
  revert seen. induction fieldNames1 as [|f rest IH]; intros seen; [done|].
  simpl. by destruct (containsField f seen).
Qed.

Lemma appendDistinct_idle fieldNames seen :
  (∀ f, f ∈ fieldNames → containsField f seen = true) →
  appendDistinct fieldNames seen = seen.
Proof.
  induction fieldNames as [|f rest IH]; intros Hall; [done|].
  simpl. rewrite (Hall f) by left. apply IH. intros f' Hf'. apply Hall.
  by right.
Qed.

Lemma containsField_appendDistinct f fieldNames seen :
  containsField f (appendDistinct fieldNames seen)
  = containsField f seen || containsField f fieldNames.
Proof.
  revert seen. induction fieldNames as [|f0 rest IH]; intros seen; simpl.
  - by rewrite orb_false_r.
  - destruct (containsField f0 seen) eqn:Hc.
    + rewrite IH. destruct (String.eqb_spec f0 f) as [->|]; [|done].
      by rewrite Hc.
    + rewrite IH, containsField_app. simpl.
      destruct (String.eqb f0 f); simpl.
      * by rewrite !orb_true_r.
      * by rewrite orb_false_r.
Qed.

Lemma appendDistinct_NoDup fieldNames seen :
  NoDup (seen ++ fieldNames) →
  appendDistinct fieldNames seen = seen ++ fieldNames.
Proof.
  revert seen. induction fieldNames as [|f rest IH]; intros seen Hnd; simpl.
  - by rewrite app_nil_r.
  - assert (containsField f seen = false) as ->.
    { destruct (containsField f seen) eqn:Hc; [|done].
      apply containsField_elem_of in Hc.
      apply NoDup_app in Hnd as (_ & Hdisj & _).
      exfalso. apply (Hdisj f Hc). left. }
    rewrite IH; rewrite <- app_assoc; done.
Qed.

Section RecordContents.

Variable d : Document.
Variable rootNodes : list TypeField.

Lemma entered_nil : enteredRecords d rootNodes [].
Proof.
  split.
  - intros t node _. by exists [], (NodeFieldDefinitions d node).
  - by intros t ?%elem_of_nil.
Qed.

Lemma fieldsOf_before typeName node before fieldRef after childNodes :
  FirstNodeByNameStr (DocumentIndex d) typeName = Some node →
  NodeFieldDefinitions d node = before ++ fieldRef :: after →
  (∀ r, r ∈ before →
     registered childNodes typeName (FieldDefinitionNameString d r) = true) →
  registered childNodes typeName (FieldDefinitionNameString d fieldRef)
    = false →
  orderedRecords d childNodes →
  fieldsOf childNodes typeName
  = appendDistinct (FieldDefinitionNameString d <$> before) [].
Proof.
  intros Hnode Hsplit Hbefore Hfresh Hord.
  destruct (Hord typeName node Hnode) as (pre & post & Hpre & Hfields).
  rewrite Hsplit in Hpre. symmetry in Hpre.
  apply app_eq_inv in Hpre as [(k & -> & Hk)|(k & -> & Hk)].
  - destruct k as [|r' k']; [by rewrite app_nil_r in Hfields|].
    exfalso. simpl in Hk. injection Hk as <- _.
    rewrite registered_fieldsOf, Hfields, containsField_appendDistinct
      in Hfresh.
    simpl in Hfresh.
    assert (containsField (FieldDefinitionNameString d fieldRef)
              (FieldDefinitionNameString d <$> before ++ fieldRef :: k')
            = true) as Hin.
    { apply containsField_elem_of, list_elem_of_fmap_2, elem_of_app.
      right. left. }
    congruence.
  - rewrite fmap_app, appendDistinct_app, <- Hfields.
    symmetry. apply appendDistinct_idle.
    intros f (r & -> & Hr)%list_elem_of_fmap.
    rewrite <- registered_fieldsOf. apply Hbefore, elem_of_app. by right.
Qed.

Lemma addChildTypeFieldName_entered typeName node before fieldRef after
    childNodes :
  FirstNodeByNameStr (DocumentIndex d) typeName = Some node →
  NodeFieldDefinitions d node = before ++ fieldRef :: after →
  walked d rootNodes typeName →
  (∀ r, r ∈ before →
     registered childNodes typeName (FieldDefinitionNameString d r) = true) →
  registered childNodes typeName (FieldDefinitionNameString d fieldRef)
    = false →
  enteredRecords d rootNodes childNodes →
  enteredRecords d rootNodes (addChildTypeFieldName typeName
             (FieldDefinitionNameString d fieldRef) childNodes).2.
Proof.
  intros Hnode Hsplit Hwalked Hbefore Hfresh [Hord Hnames]. split.
  - intros t node' Hnode'. rewrite fieldsOf_add.
    destruct (String.eqb_spec typeName t) as [<-|Hne]; simpl;
      [|by apply Hord].
    rewrite <- registered_fieldsOf, Hfresh. simpl.
    assert (node' = node) as -> by congruence.
    exists (before ++ [fieldRef]), after. split; [by rewrite <- app_assoc|].
    rewrite fmap_app, appendDistinct_app.
    rewrite <- (fieldsOf_before typeName node before fieldRef after childNodes)
      by done.
    simpl. by rewrite <- registered_fieldsOf, Hfresh.
  - intros t. rewrite addChildTypeFieldName_TypeNames.
    case_bool_decide; [apply Hnames|].
    intros [Ht| ->%list_elem_of_singleton]%elem_of_app; [by apply Hnames|done].
Qed.

Lemma walkFieldDefinitions_entered fuel typeName node :
  FirstNodeByNameStr (DocumentIndex d) typeName = Some node →
  walked d rootNodes typeName →
  (∀ t childNodes childNodes',
     walked d rootNodes t → enteredRecords d rootNodes childNodes →
     findChildNodesForType fuel d t childNodes = Some childNodes' →
     enteredRecords d rootNodes childNodes') →
  ∀ todo before childNodes childNodes',
    NodeFieldDefinitions d node = before ++ todo →
    enteredRecords d rootNodes childNodes →
    (∀ r, r ∈ before →
       registered childNodes typeName (FieldDefinitionNameString d r) = true) →
    walkFieldDefinitions (findChildNodesForType fuel d) d typeName todo
      childNodes = Some childNodes' →
    enteredRecords d rootNodes childNodes'.
Proof.
  intros Hnode Hwalked Hrec. induction todo as [|fieldRef rest IH];
    intros before childNodes childNodes' Hsplit Hent Hbefore Hwalk;
    simpl in Hwalk; [by inversion Hwalk; subst|].
  pose proof (addChildTypeFieldName_added typeName
                (FieldDefinitionNameString d fieldRef) childNodes) as Hadded.
  pose proof (addChildTypeFieldName_not_added typeName
                (FieldDefinitionNameString d fieldRef) childNodes) as Hsame.
  pose proof (addChildTypeFieldName_entered typeName node before fieldRef rest
                childNodes Hnode Hsplit Hwalked Hbefore) as Hstep.
  pose proof (addChildTypeFieldName_self typeName
                (FieldDefinitionNameString d fieldRef) childNodes) as Hself.
  pose proof (addChildTypeFieldName_mono typeName
                (FieldDefinitionNameString d fieldRef) childNodes) as Hmono.
  destruct (addChildTypeFieldName typeName
              (FieldDefinitionNameString d fieldRef) childNodes)
    as [added childNodes1].
  simpl in *.
  assert (NodeFieldDefinitions d node = (before ++ [fieldRef]) ++ rest)
    as Hsplit' by (by rewrite <- app_assoc).
  destruct added; simpl in Hwalk.
  - assert (registered childNodes typeName
              (FieldDefinitionNameString d fieldRef) = false) as Hfresh
      by (by destruct (registered childNodes typeName
                         (FieldDefinitionNameString d fieldRef))).
    assert (firstFieldRef d node (FieldDefinitionNameString d fieldRef)
            = Some fieldRef) as Hfirst.
    { unfold firstFieldRef. rewrite Hsplit. apply find_first_fresh.
      - intros r0 Hr0. apply String.eqb_neq. intros Heq.
        specialize (Hbefore r0 Hr0). rewrite Heq in Hbefore. congruence.
      - apply String.eqb_refl. }
    destruct (findChildNodesForType fuel d (fieldTypeName d fieldRef)
                childNodes1) as [childNodes2|] eqn:Hfind; [|discriminate].
    apply (IH (before ++ [fieldRef]) childNodes2 childNodes'); [done| |  |done].
    + apply (Hrec (fieldTypeName d fieldRef) childNodes1); [|by apply Hstep|done].
      by eapply walked_field.
    + intros r [Hr| ->%list_elem_of_singleton]%elem_of_app.
      * eapply findChildNodesForType_mono; [done|]. by apply Hmono, Hbefore.
      * by eapply findChildNodesForType_mono.
  - rewrite Hsame in * by done.
    apply (IH (before ++ [fieldRef]) childNodes childNodes'); [done..| |done].
    intros r [Hr| ->%list_elem_of_singleton]%elem_of_app; [by apply Hbefore|].
    by destruct (registered childNodes typeName
                   (FieldDefinitionNameString d fieldRef)).
Qed.

Lemma findChildNodesForType_entered fuel :
  ∀ typeName childNodes childNodes',
    walked d rootNodes typeName → enteredRecords d rootNodes childNodes →
    findChildNodesForType fuel d typeName childNodes = Some childNodes' →
    enteredRecords d rootNodes childNodes'.
Proof.
  induction fuel as [|fuel IH];
    intros typeName childNodes childNodes' Hwalked Hent Hfind;
    simpl in Hfind; [discriminate|].
  destruct (FirstNodeByNameStr (DocumentIndex d) typeName) as [node|] eqn:Hnode;
    [|by inversion Hfind; subst].
  apply (walkFieldDefinitions_entered fuel typeName node Hnode Hwalked IH
           (NodeFieldDefinitions d node) [] childNodes childNodes');
    [done | done | by intros r ?%elem_of_nil | done].
Qed.

Lemma walkRootFieldNames_entered fuel rootNode rootNodeASTNode fieldNames :
  rootNode ∈ rootNodes →
  FirstNodeByNameStr (DocumentIndex d) (TypeName rootNode)
    = Some rootNodeASTNode →
  (∀ f, f ∈ fieldNames → f ∈ FieldNames rootNode) →
  ∀ childNodes childNodes',
    enteredRecords d rootNodes childNodes →
    walkRootFieldNames fuel d
      (buildFieldNameToRef d (NodeFieldDefinitions d rootNodeASTNode) ∅)
      fieldNames childNodes = Some childNodes' →
    enteredRecords d rootNodes childNodes'.
Proof.
  intros Hroot Hnode. induction fieldNames as [|fieldName rest IH];
    intros Hsub childNodes childNodes' Hent Hwalk; simpl in Hwalk;
    [by inversion Hwalk; subst|].
  destruct (findChildNodesForType fuel d _ childNodes)
    as [childNodes1|] eqn:Hfind; [|discriminate].
  apply (IH (λ f Hf, Hsub f (list_elem_of_further _ _ _ Hf))
            childNodes1 childNodes'); [|done].
  eapply findChildNodesForType_entered; [|done..].
  apply (walked_root d rootNodes rootNode rootNodeASTNode fieldName);
    [done..|]. apply Hsub. left.
Qed.

Lemma walkRootNodes_entered fuel todo :
  (∀ rootNode, rootNode ∈ todo → rootNode ∈ rootNodes) →
  ∀ childNodes childNodes',
    enteredRecords d rootNodes childNodes →
    walkRootNodes fuel d todo childNodes = Some childNodes' →
    enteredRecords d rootNodes childNodes'.
Proof.
  induction todo as [|rootNode rest IH];
    intros Hsub childNodes childNodes' Hent Hwalk; simpl in Hwalk;
    [by inversion Hwalk; subst|].
  assert (∀ rf, rf ∈ rest → rf ∈ rootNodes) as Hsub'
    by (intros rf Hrf; apply Hsub; by right).
  destruct (FirstNodeByNameStr (DocumentIndex d) (TypeName rootNode))
    as [rootNodeASTNode|] eqn:Hnode; [|by apply (IH Hsub' childNodes)].
  destruct (walkRootFieldNames fuel d _ (FieldNames rootNode) childNodes)
    as [childNodes1|] eqn:Hnames; [|discriminate].
  apply (IH Hsub' childNodes1 childNodes'); [|done].
  eapply (walkRootFieldNames_entered fuel rootNode rootNodeASTNode);
    [apply Hsub; left | done | done | done | done].
Qed.

Lemma getAllChildNodes_entered :
  enteredRecords d rootNodes (getAllChildNodes d rootNodes).
Proof.
  apply (walkRootNodes_entered (walkFuel d) rootNodes (λ _ H, H) []
           (getAllChildNodes d rootNodes) entered_nil).
  by apply getAllChildNodes_fuel.
Qed.

End RecordContents.

Lemma declaredNames_nil d node :
  NodeFieldDefinitions d node = [] → declaredNames d node = [].
Proof. unfold declaredNames. by intros ->. Qed.

Lemma getAllChildNodes_contents d rootNodes tf :
  tf ∈ getAllChildNodes d rootNodes →
  ∃ node,
    walked d rootNodes (TypeName tf) ∧
    FirstNodeByNameStr (DocumentIndex d) (TypeName tf) = Some node ∧
    NodeFieldDefinitions d node ≠ [] ∧
    FieldNames tf = declaredNames d node.
Proof.
  intros Htf.
  destruct (getAllChildNodes_entered d rootNodes) as [Hord Hwalked].
  destruct (getAllChildNodes_wellFormed d rootNodes) as [Hnd Hfields].
  rewrite Forall_forall in Hfields. destruct (Hfields tf Htf) as [_ Hne].
  destruct (getAllChildNodes_declared d rootNodes tf Htf) as (node & Hnode & _).
  assert (walked d rootNodes (TypeName tf)) as Hw
    by (by apply Hwalked, list_elem_of_fmap_2).
  assert (FieldNames tf = declaredNames d node) as Hnames.
  { rewrite <- (fieldsOf_elem_of _ tf Hnd Htf).
    destruct (Hord (TypeName tf) node Hnode)
      as (before & after & Hsplit & Hfo).
    unfold declaredNames.
    rewrite Hsplit, fmap_app, appendDistinct_app, <- Hfo.
    symmetry. apply appendDistinct_idle.
    intros f (r & -> & Hr)%list_elem_of_fmap.
    rewrite <- registered_fieldsOf.
    apply (walked_fullyRegistered d rootNodes _ Hw node r Hnode).
    rewrite Hsplit. apply elem_of_app. by right. }
  exists node. split_and!; [done..| |done].
  intros Hnil. apply Hne. rewrite Hnames. by apply declaredNames_nil.
Qed.

(** X11.  The child set holds a record exactly for the types that the
    walk enters, that the index holds and that declare a field; the
    record lists the names of all field definitions of the type in
    declaration order, a repeated name at its first place only. *)
Theorem child_set_membership
    (d : Document) (rootNodes : list TypeField) (tf : TypeField) :
  tf ∈ getAllChildNodes d rootNodes ↔
  ∃ node,
    walked d rootNodes (TypeName tf) ∧
    FirstNodeByNameStr (DocumentIndex d) (TypeName tf) = Some node ∧
    NodeFieldDefinitions d node ≠ [] ∧
    FieldNames tf = declaredNames d node.
Proof.
  split; [apply getAllChildNodes_contents|].
  intros (node & Hw & Hnode & Hne & Hnames).
  destruct (NodeFieldDefinitions d node) as [|r rs] eqn:Hrs; [done|].
  destruct (fullyRegistered_elem_of d (getAllChildNodes d rootNodes)
              (TypeName tf) node r (walked_fullyRegistered d rootNodes _ Hw)
              Hnode)
    as (tf' & Htf' & Hname' & _); [rewrite Hrs; left|].
  destruct (getAllChildNodes_contents d rootNodes tf' Htf')
    as (node' & _ & Hnode' & _ & Hnames').
  rewrite Hname', Hnode in Hnode'. inversion Hnode'; subst node'.
  assert (tf = tf') as ->; [|done].
  destruct tf, tf'. simpl in *. congruence.
Qed.

(** X12.  For a type whose field names are all different, the child record
    lists the names of its field definitions just as declared. *)
Theorem child_record_in_declaration_order
    (d : Document) (rootNodes : list TypeField) (tf : TypeField) (node : Node) :
  tf ∈ getAllChildNodes d rootNodes →
  FirstNodeByNameStr (DocumentIndex d) (TypeName tf) = Some node →
  NoDup (FieldDefinitionNameString d <$> NodeFieldDefinitions d node) →
  FieldNames tf = FieldDefinitionNameString d <$> NodeFieldDefinitions d node.
Proof.
  intros (node' & _ & Hnode' & _ & ->)%getAllChildNodes_contents Hnode Hnd.
  assert (node' = node) as -> by congruence.
  unfold declaredNames. by rewrite appendDistinct_NoDup.
Qed.

Lemma child_record_in_declaration_order_witness :
  FieldNames (mkTypeField "Foo" ["id"; "b"; "secret"])
  = FieldDefinitionNameString scenarioDocument
      <$> NodeFieldDefinitions scenarioDocument
            (mkNode NodeKindObjectTypeDefinition 1).
Proof.
  apply (child_record_in_declaration_order scenarioDocument
           [mkTypeField "Query" ["a"]; mkTypeField "Foo" ["id"; "b"]]).
  - apply list_elem_of_In. vm_compute. left. reflexivity.
  - reflexivity.
  - apply (bool_decide_unpack _). vm_compute. exact I.
Defined.

Lemma walked_ext d rootNodes rootNodes' typeName :
  (∀ rootNode, rootNode ∈ rootNodes → rootNode ∈ rootNodes') →
  walked d rootNodes typeName → walked d rootNodes' typeName.
Proof.
  intros Hsub.
  induction 1 as [rf rn f Hrf Hrn Hf | t node f r _ IH Hnode Hfirst].
  - apply (walked_root d rootNodes' rf rn f); auto.
  - by eapply walked_field.
Qed.

(** X13.  The order and the repetitions of the root records decide only
    the order of the child set: two lists with the same root records give
    child sets that are rearrangements of each other. *)
Theorem child_set_up_to_order
    (d : Document) (rootNodes rootNodes' : list TypeField) :
  (∀ rootNode, rootNode ∈ rootNodes ↔ rootNode ∈ rootNodes') →
  getAllChildNodes d rootNodes ≡ₚ getAllChildNodes d rootNodes'.
Proof.
  intros Hsame. apply NoDup_Permutation.
  - eapply NoDup_fmap_1, getAllChildNodes_wellFormed.
  - eapply NoDup_fmap_1, getAllChildNodes_wellFormed.
  - intros tf. rewrite !child_set_membership.
    split; intros (node & Hw & Hrest); exists node; (split; [|done]);
      (eapply walked_ext; [|done]); intros rf; apply Hsame.
Qed.

Lemma child_set_up_to_order_witness :
  getAllChildNodes scenarioDocument
    [mkTypeField "Query" ["a"]; mkTypeField "Foo" ["id"; "b"]]
  ≡ₚ getAllChildNodes scenarioDocument
       [mkTypeField "Foo" ["id"; "b"]; mkTypeField "Query" ["a"]].
Proof.
  apply child_set_up_to_order.
  intros rootNode. rewrite !list_elem_of_In. simpl. tauto.
Defined.

Lemma pairsOf_NoDup childNodes :
  wellFormed childNodes → NoDup (pairsOf childNodes).
Proof.
  intros [Hnd Hfields]. rewrite Forall_forall in Hfields.
  apply NoDup_bind.
  - intros tf1 tf2 [t f] H1 H2
      (f1 & [= -> ->] & _)%list_elem_of_fmap (f2 & [= Heq _] & _)%list_elem_of_fmap.
    by apply (TypeName_inj childNodes).
  - intros tf Htf. apply NoDup_fmap_2; [|by destruct (Hfields tf Htf)].
    by intros f1 f2 [= ->].
  - by eapply NoDup_fmap_1.
Qed.

(** X14.  The child set never lists a (type, field) pair twice, and holds
    no more field names than the indexed types have field definitions. *)
Theorem child_set_size_bound (d : Document) (rootNodes : list TypeField) :
  NoDup (pairsOf (getAllChildNodes d rootNodes)) ∧
  (fieldCount (getAllChildNodes d rootNodes) ≤ length (pairUniverse d))%nat.
Proof.
  assert (NoDup (pairsOf (getAllChildNodes d rootNodes))) as Hnd
    by apply pairsOf_NoDup, getAllChildNodes_wellFormed.
  split; [done|]. unfold fieldCount.
  apply submseteq_length, NoDup_submseteq; [done|].
  intros [t f] (tf & (f' & [= -> ->] & Hf)%list_elem_of_fmap & Htf)%list_elem_of_bind.
  destruct (getAllChildNodes_declared d rootNodes tf Htf) as (node & Hnode & Hdecl).
  destruct (Hdecl f' Hf) as (r & Hr & <-).
  by eapply pairUniverse_elem_of.
Qed.

(** X15.  The walk of a type keeps a slice in shape whatever slice it is
    handed: if no two records have the same type name and no record lists
    a field name twice or none at all, the same holds when it returns. *)
Theorem findChildNodesForType_keeps_shape
    (d : Document) (fuel : nat) (typeName : string)
    (childNodes childNodes' : list TypeField) :
  NoDup (TypeName <$> childNodes) →
  (∀ tf, tf ∈ childNodes → NoDup (FieldNames tf) ∧ FieldNames tf ≠ []) →
  findChildNodesForType fuel d typeName childNodes = Some childNodes' →
  NoDup (TypeName <$> childNodes') ∧
  (∀ tf, tf ∈ childNodes' → NoDup (FieldNames tf) ∧ FieldNames tf ≠ []).
Proof.
  intros Hnd Hfields Hfind.
  assert (wellFormed childNodes') as [Hnd' Hfields'].
  { eapply (findChildNodesForType_invariant d wellFormed); [| |done].
    - intros t node fieldRef cs _ _. apply addChildTypeFieldName_wellFormed.
    - split; [done|]. by apply Forall_forall. }
  split; [done|]. by apply Forall_forall.
Qed.

Lemma findChildNodesForType_keeps_shape_witness :
  NoDup (TypeName <$> [mkTypeField "B" ["a"]; mkTypeField "A" ["b"]]).
Proof.
  apply (findChildNodesForType_keeps_shape cycleDocument 3 "A"
           [mkTypeField "B" ["a"]]
           [mkTypeField "B" ["a"]; mkTypeField "A" ["b"]]).
  - apply (bool_decide_unpack _). vm_compute. exact I.
  - intros tf Htf. apply list_elem_of_In in Htf. simpl in Htf.
    destruct Htf as [<-|[]]. split; [|discriminate].
    apply (bool_decide_unpack _). vm_compute. exact I.
  - reflexivity.
Defined.
